(** * WorldMap.jsx: the data-to-geometry pipeline, the travel arc, the
      animation clock and the viewport handler

    A shallow embedding of [src/components/WorldMap.jsx].

    Conventions of the embedding.
    - A JavaScript Number is a real number ([R]) and the arithmetic operators
      are exact; NaN and the infinities are outside the model.  What the
      platform hands over as a double is that double: [Math.PI] is the
      binary64 number next to pi, and [Math.sin] returns the binary64 number
      nearest to the sine of its argument.
    - The dataset comes from a JSON file, so ring entries, features and
      geometries are arbitrary JSON values ([value]); nothing is assumed about
      their shape beyond what the code tests itself.
    - A mutable object is threaded explicitly: [mapGroup] is the list of the
      children added so far, in order of insertion.
    - A [TypeError] raised by a property read or a method call on a value that
      does not have it ends the effect; it is the [Throw] completion. *)

From Stdlib Require Import Reals Lra List String Ascii ZArith Lia Bool Arith.
From Stdlib Require Import Machin Ratan.
Import ListNotations.

Set Implicit Arguments.
Set Warnings "-register-all".

(* ================================================================== *)
(** ** JavaScript values as they come out of a JSON file *)

Module JS.

Inductive value : Type :=
| VUndef
| VNull
| VBool (b : bool)
| VNum (x : R)
| VStr (s : string)
| VArr (items : list value)
| VObj (fields : list (string * value)).

(** [Array.isArray(v)] *)
Definition isArray (v : value) : bool :=
  match v with
  | VArr _ => true
  | _ => false
  end.

(** ToBoolean: what [!v], [if (v)] and [a && b] test. *)
Definition truthy (v : value) : bool :=
  match v with
  | VUndef | VNull => false
  | VBool b => b
  | VNum x => if Req_dec_T x 0 then false else true
  | VStr s => negb (String.eqb s EmptyString)
  | VArr _ | VObj _ => true
  end.

(** Completions: a computation ends normally or throws. *)
Inductive completion (A : Type) : Type :=
| Normal (a : A)
| Throw.

Arguments Throw {A}.

Definition bind {A B : Type} (c : completion A) (k : A -> completion B)
  : completion B :=
  match c with
  | Normal a => k a
  | Throw => Throw
  end.

Declare Scope completion_scope.
Delimit Scope completion_scope with completion.
Notation "x <- c ;; k" := (bind c (fun x => k))
  (at level 61, c at next level, right associativity) : completion_scope.

(** The own property [k] of an object literal; a key written twice keeps its
    last value, as [JSON.parse] does. *)
Fixpoint lookup (k : string) (fields : list (string * value)) : value :=
  match fields with
  | [] => VUndef
  | (k', v) :: rest =>
      if existsb (fun kv => String.eqb (fst kv) k) rest then lookup k rest
      else if String.eqb k' k then v else VUndef
  end.

(** [v.k] for the names the component reads ([features], [length],
    [geometry], [coordinates], [type]): a [TypeError] on [undefined] and
    [null], the own property of an object, [length] of an array or a string,
    [undefined] otherwise. *)
Definition get (v : value) (k : string) : completion value :=
  match v with
  | VUndef | VNull => Throw
  | VObj fields => Normal (lookup k fields)
  | VArr items =>
      if String.eqb k "length" then Normal (VNum (INR (List.length items)))
      else Normal VUndef
  | VStr s =>
      if String.eqb k "length" then Normal (VNum (INR (String.length s)))
      else Normal VUndef
  | VBool _ | VNum _ => Normal VUndef
  end.

(** [v?.k] *)
Definition opt_get (v : value) (k : string) : completion value :=
  match v with
  | VUndef | VNull => Normal VUndef
  | _ => get v k
  end.

(** [v[0]] *)
Definition index0 (v : value) : completion value :=
  match v with
  | VUndef | VNull => Throw
  | VArr items => Normal (nth 0 items VUndef)
  | VStr EmptyString => Normal VUndef
  | VStr (String c _) => Normal (VStr (String c EmptyString))
  | VObj fields => Normal (lookup "0" fields)
  | VBool _ | VNum _ => Normal VUndef
  end.

(** [v === "lit"] *)
Definition strict_eq_str (v : value) (lit : string) : bool :=
  match v with
  | VStr s => String.eqb s lit
  | _ => false
  end.

(** [Array.prototype.forEach] with a callback that reads the element and its
    index and updates the state it closes over. *)
Fixpoint forEach_from {S : Type} (f : value -> nat -> S -> S)
         (items : list value) (i : nat) (s : S) : S :=
  match items with
  | [] => s
  | p :: rest => forEach_from f rest (Datatypes.S i) (f p i s)
  end.

(** The same with a callback that may throw: the first exception leaves the
    loop. *)
Fixpoint forEach_throwing {S : Type} (f : value -> S -> completion S)
         (items : list value) (s : S) : completion S :=
  match items with
  | [] => Normal s
  | p :: rest => bind (f p s) (forEach_throwing f rest)
  end.

(** [v.forEach(cb)]: only an array has the method; calling it on anything
    else is a [TypeError]. *)
Definition forEach_method {S : Type} (v : value)
           (f : value -> S -> completion S) (s : S) : completion S :=
  match v with
  | VArr items => forEach_throwing f items s
  | _ => Throw
  end.

End JS.

Import JS.

(* ================================================================== *)
(** ** The part of three.js the component builds on *)

Module THREE.

Record Vector2 (A : Type) : Type := mkVector2 { x2 : A; y2 : A }.
Record Vector3 (A : Type) : Type := mkVector3 { x3 : A; y3 : A; z3 : A }.

(** A [Shape] is the trace of the path calls made on it. *)
Inductive path_call : Type :=
| moveTo (x y : value)
| lineTo (x y : value).

Definition Shape : Type := list path_call.

Inductive material : Type :=
| landMat
| shadowMat
| coastMat.

(** The children of a group: a mesh over a [ShapeGeometry] with its material
    and transform, or a line through points. *)
Inductive object3d : Type :=
| Mesh (shape : Shape) (m : material) (position scale : Vector3 R)
| Line (pts : list (Vector3 value)) (m : material).

(** [THREE.MathUtils.lerp] *)
Definition lerp (x y t : R) : R := ((1 - t) * x + t * y)%R.

End THREE.

Import THREE.

(* ================================================================== *)
(** ** The doubles the platform provides *)

Module Double.

Local Open Scope R_scope.

(** [Math.PI], the binary64 number 0x400921FB54442D18, that is
    7074237752028440 * 2^-51. *)
Definition Math_PI : R := 884279719003555 / 281474976710656.

(** The binade of a number: [2^(mag y - 1) <= |y| < 2^(mag y)]. *)
Definition mag (y : R) : Z := (Int_part (ln (Rabs y) / ln 2) + 1)%Z.

(** The exponent of the last bit of the binary64 numbers around [y]:
    53 bits of precision, and no exponent below that of the subnormals. *)
Definition fexp (y : R) : Z := Z.max (mag y - 53) (-1074).

(** The integer nearest to [r], the even one of two equally near. *)
Definition nearest_even (r : R) : Z :=
  let f := Int_part r in
  if Rlt_dec (r - IZR f) (1 / 2) then f
  else if Rlt_dec (1 / 2) (r - IZR f) then (f + 1)%Z
  else if Z.even f then f else (f + 1)%Z.

(** Rounding to the nearest binary64 number, ties to even, for a number
    below the overflow threshold. *)
Definition round_double (y : R) : R :=
  IZR (nearest_even (y * powerRZ 2 (- fexp y))) * powerRZ 2 (fexp y).

(** [Math.sin], taken to be correctly rounded. *)
Definition Math_sin (x : R) : R := round_double (sin x).

End Double.

Import Double.

(* ================================================================== *)
(** ** DRAW POLYGON *)

Module WorldMap.

(** [const project = ([lon, lat]) => new THREE.Vector2(lon, lat)]; reading an
    index the array does not have gives [undef]. *)
Definition project {A : Type} (undef : A) (p : list A) : Vector2 A :=
  mkVector2 (nth 0 p undef) (nth 1 p undef).

(** [Array.isArray(p) && p.length >= 2], the test of both passes over the
    ring (line 71 negated, line 89). *)
Definition valid_pair (p : value) : bool :=
  match p with
  | VArr c => (2 <=? List.length c)%nat
  | _ => false
  end.

(** The body of [ring.forEach((p, i) => ...)], lines 70-75. *)
Definition shape_step (p : value) (i : nat) (shape : Shape) : Shape :=
  match p with
  | VArr c =>
      if (List.length c <? 2)%nat then shape
      else
        let v := project VUndef c in
        if (i =? 0)%nat then shape ++ [moveTo (x2 v) (y2 v)]
        else shape ++ [lineTo (x2 v) (y2 v)]
  | _ => shape
  end.

(** The body of [.map(p => ...)], lines 90-93.  The filter before it lets
    only arrays through, so the second branch is never taken. *)
Definition coast_point (p : value) : Vector3 value :=
  match p with
  | VArr c => let v := project VUndef c in mkVector3 (x2 v) (y2 v) (VNum 2)
  | _ => mkVector3 VUndef VUndef (VNum 2)
  end.

Definition shadow_mesh (shape : Shape) : object3d :=
  Mesh shape shadowMat
       (mkVector3 0 (0 - 4) (0 - 2))%R
       (mkVector3 1.03 1.03 1)%R.

Definition land_mesh (shape : Shape) : object3d :=
  Mesh shape landMat (mkVector3 0 0 0)%R (mkVector3 1 1 1)%R.

(** [drawPolygon], lines 65-100; [mapGroup.add] appends a child. *)
Definition drawPolygon (ring : value) (mapGroup : list object3d)
  : list object3d :=
  match ring with
  | VArr items =>
      if (List.length items <? 3)%nat then mapGroup
      else
        let shape := forEach_from shape_step items 0 [] in
        let mapGroup := mapGroup ++ [shadow_mesh shape] in
        let mapGroup := mapGroup ++ [land_mesh shape] in
        let pts := map coast_point (filter valid_pair items) in
        if (1 <? List.length pts)%nat then mapGroup ++ [Line pts coastMat]
        else mapGroup
  | _ => mapGroup
  end.

(** How many entries of a ring are coordinate pairs the code accepts. *)
Definition valid_count (ring : value) : nat :=
  match ring with
  | VArr items => List.length (filter valid_pair items)
  | _ => 0
  end.

(* ---------------------------------------------------------------- *)
(** *** LOAD GEOJSON *)

Local Open Scope completion_scope.

(** The callback of [g.coordinates.forEach(poly => ...)], lines 113-117. *)
Definition drawRingSet (poly : value) (mapGroup : list object3d)
  : completion (list object3d) :=
  if isArray poly then
    r <- index0 poly ;;
    if truthy r then Normal (drawPolygon r mapGroup) else Normal mapGroup
  else Normal mapGroup.

(** The callback of [land.features.forEach(f => ...)], lines 104-119. *)
Definition drawFeature (f : value) (mapGroup : list object3d)
  : completion (list object3d) :=
  g <- get f "geometry" ;;
  if negb (truthy g) then Normal mapGroup
  else
    c <- get g "coordinates" ;;
    if negb (truthy c) then Normal mapGroup
    else
      ty <- get g "type" ;;
      mapGroup <- (if strict_eq_str ty "Polygon"
                   then r <- index0 c ;; Normal (drawPolygon r mapGroup)
                   else Normal mapGroup) ;;
      ty <- get g "type" ;;
      if strict_eq_str ty "MultiPolygon"
      then forEach_method c drawRingSet mapGroup
      else Normal mapGroup.

(** Lines 103-120. *)
Definition loadGeojson (land : value) (mapGroup : list object3d)
  : completion (list object3d) :=
  fs <- opt_get land "features" ;;
  len <- opt_get fs "length" ;;
  if truthy len then
    fs <- get land "features" ;;
    forEach_method fs drawFeature mapGroup
  else Normal mapGroup.

(* ---------------------------------------------------------------- *)
(** *** TRAVEL ARC *)

Local Open Scope R_scope.

Definition arcSteps : nat := 160.

Definition arc_start : Vector2 R := project 0 [10; 45].
Definition arc_end : Vector2 R := project 0 [120; 25].

(** The two arrays the loop pushes to. *)
Record arc_buffers : Type := mkArc {
  arcPts : list (Vector3 R);
  arcProg : list R
}.

(** [Math.sin(t * Math.PI) * 18], the lift added to the y coordinate. *)
Definition arc_lift (t : R) : R := Math_sin (t * Math_PI) * 18.

(** The body of the loop, lines 131-139. *)
Definition arc_body (i : nat) (b : arc_buffers) : arc_buffers :=
  let t := INR i / INR arcSteps in
  mkArc
    (arcPts b ++
       [mkVector3 (lerp (x2 arc_start) (x2 arc_end) t)
                  (lerp (y2 arc_start) (y2 arc_end) t + arc_lift t)
                  6])
    (arcProg b ++ [t]).

(** [for (let i = ...; i <= arcSteps; i++) body]; [None] when the fuel runs
    out before the test fails. *)
Fixpoint arc_loop (fuel i : nat) (b : arc_buffers) : option arc_buffers :=
  if (i <=? arcSteps)%nat then
    match fuel with
    | O => None
    | S fuel' => arc_loop fuel' (S i) (arc_body i b)
    end
  else Some b.

(** Lines 124-140. *)
Definition travelArc (fuel : nat) : option arc_buffers :=
  arc_loop fuel 0 (mkArc [] []).

End WorldMap.

(* ================================================================== *)
(** ** The fragment shader of the arc material *)

Module GLSL.

Local Open Scope R_scope.

(** The built-ins, as the GLSL specification defines them. *)
Definition clamp (x minVal maxVal : R) : R := Rmin (Rmax x minVal) maxVal.

Definition smoothstep (edge0 edge1 x : R) : R :=
  let t := clamp ((x - edge0) / (edge1 - edge0)) 0 1 in
  t * t * (3 - 2 * t).

(** The value [g] of [main], lines 160-162. *)
Definition glow (time vP : R) : R :=
  let h := smoothstep (time - 0.05) time vP in
  let t := smoothstep time (time + 0.2) vP in
  h * t.

(** [gl_FragColor], line 163: red, green, blue, alpha. *)
Definition fragmentShader (time vP : R) : R * R * R * R :=
  let g := glow time vP in
  (1.0 * g, 0.55 * g, 0.15 * g, g).

End GLSL.

(* ================================================================== *)
(** ** Renderer, camera, animation tick and resize handler *)

Module Viewport.

Local Open Scope R_scope.

Record window : Type := mkWindow {
  innerWidth : R;
  innerHeight : R;
  devicePixelRatio : R
}.

Record renderer : Type := mkRenderer {
  pixelRatio : R;
  width : R;
  height : R
}.

Record camera : Type := mkCamera {
  left : R;
  right : R;
  top : R;
  bottom : R;
  near : R;
  far : R;
  position_z : R
}.

Definition WORLD_WIDTH : R := 360.
Definition WORLD_HEIGHT : R := 180.

(** [Math.min] on two numbers. *)
Definition Math_min (a b : R) : R := Rmin a b.

(** Lines 14-20. *)
Definition newRenderer (w : window) : renderer :=
  mkRenderer (Math_min (devicePixelRatio w) 2) (innerWidth w) (innerHeight w).

(** Lines 26-36. *)
Definition newCamera (w : window) : camera :=
  let aspect := innerWidth w / innerHeight w in
  mkCamera (- WORLD_WIDTH * aspect * 0.5)
           (WORLD_WIDTH * aspect * 0.5)
           (WORLD_HEIGHT * 0.5)
           (- WORLD_HEIGHT * 0.5)
           (-100)
           100
           10.

(** What the animation tick and the resize handler close over. *)
Record state : Type := mkState {
  st_renderer : renderer;
  st_camera : camera;
  st_time : R
}.

(** Lines 12-36 and 147: the uniform [time] starts at 0. *)
Definition mount (w : window) : state :=
  mkState (newRenderer w) (newCamera w) 0.

(** Truncation towards zero, the quotient of the [%] operator. *)
Definition trunc (x : R) : Z :=
  if Rle_dec 0 x then Int_part x else (- Int_part (- x))%Z.

(** [n % d] on numbers, for a divisor other than zero. *)
Definition js_rem (n d : R) : R := n - d * IZR (trunc (n / d)).

(** The value written to the uniform, line 175. *)
Definition wrapped_time (elapsed : R) : R := js_rem (elapsed * 0.25) 1.

(** [animate], lines 174-178, at clock reading [elapsed]; drawing the frame
    and asking for the next one change nothing of the state. *)
Definition animate (elapsed : R) (s : state) : state :=
  mkState (st_renderer s) (st_camera s) (wrapped_time elapsed).

(** [resize], lines 182-188, with the window as it is when the event is
    delivered. *)
Definition resize (w : window) (s : state) : state :=
  let a := innerWidth w / innerHeight w in
  let cam := st_camera s in
  let cam := mkCamera (- WORLD_WIDTH * a * 0.5) (right cam) (top cam)
                      (bottom cam) (near cam) (far cam) (position_z cam) in
  let cam := mkCamera (left cam) (WORLD_WIDTH * a * 0.5) (top cam)
                      (bottom cam) (near cam) (far cam) (position_z cam) in
  let rd := st_renderer s in
  let rd := mkRenderer (pixelRatio rd) (innerWidth w) (innerHeight w) in
  mkState rd cam (st_time s).

End Viewport.

(* ================================================================== *)
(** ** Specification-side vocabulary *)

Module Spec.

Import WorldMap.

(** The ring of a ring-set that reaches [drawPolygon], if any. *)
Definition outer_ring (poly : value) : option value :=
  match poly with
  | VArr (r :: _) => if truthy r then Some r else None
  | _ => None
  end.

(** Drawing the outer ring of every ring-set of a list, in order. *)
Definition draw_outer_rings (polys : list value) (mapGroup : list object3d)
  : list object3d :=
  fold_left
    (fun grp poly =>
       match outer_ring poly with
       | Some r => drawPolygon r grp
       | None => grp
       end)
    polys mapGroup.

(** The outline of a ring, when it has one: what lines 88-99 add. *)
Definition coastline (items : list value) : list object3d :=
  let pts := map coast_point (filter valid_pair items) in
  if (1 <? List.length pts)%nat then [Line pts coastMat] else [].

(** The sample and the progress value that step [i] of the arc loop pushes. *)
Definition sample (i : nat) : Vector3 R :=
  let t := (INR i / INR arcSteps)%R in
  mkVector3 (lerp (x2 arc_start) (x2 arc_end) t)
            (lerp (y2 arc_start) (y2 arc_end) t + arc_lift t)%R
            6%R.

Definition progress (i : nat) : R := (INR i / INR arcSteps)%R.

End Spec.

(* ================================================================== *)
(** ** Concrete inputs *)

Module Samples.

Definition pt (lon lat : R) : value := VArr [VNum lon; VNum lat].

(** Two coordinate pairs and an entry with a single component. *)
Definition ring_two_valid : value :=
  VArr [pt 0 0; pt 1 1; VArr [VNum 5]].

(** Two coordinate pairs, nothing else. *)
Definition ring_of_two : value := VArr [pt 0 0; pt 1 1].

(** Three entries, none of them a coordinate pair. *)
Definition ring_of_nulls : list value := [VNull; VNull; VNull].

(** An entry of two components of which only one is a number. *)
Definition pair_with_text : value := VArr [VNum 1; VStr "x"].

Definition ring_with_text : value := VArr [pt 0 0; pair_with_text; pt 2 2].

Definition triangle : value := VArr [pt 0 0; pt 4 0; pt 0 4].
Definition hole : value := VArr [pt 1 1; pt 2 1; pt 1 2].

Definition polygon_geometry : value :=
  VObj [("type", VStr "Polygon");
        ("coordinates", VArr [triangle; hole])]%string.

Definition polygon_feature : value :=
  VObj [("type", VStr "Feature"); ("geometry", polygon_geometry)]%string.

End Samples.

(* ================================================================== *)
(** ** Mount, frames, resize events and teardown *)

Module Lifecycle.

Import Viewport WorldMap.

(** What the component touches of its host: the frame requests that are
    neither run nor cancelled, the next request handle, whether [resize] is
    registered on the window, whether the canvas is in the container. *)
Record browser : Type := mkBrowser {
  pending : list nat;
  next_handle : nat;
  listening : bool;
  canvas_in_dom : bool
}.

(** What one run of the effect closes over: the variable [raf], the renderer,
    camera and uniform, whether the renderer was disposed, and the children
    of the map group.  The arc line is the same in every run and is left
    out. *)
Record instance : Type := mkInstance {
  raf : option nat;
  scene : state;
  disposed : bool;
  group_children : list object3d
}.

Definition requestAnimationFrame (b : browser) : nat * browser :=
  (next_handle b,
   mkBrowser (pending b ++ [next_handle b]) (S (next_handle b))
             (listening b) (canvas_in_dom b)).

(** Cancelling [undefined] or a handle that is not pending does nothing. *)
Definition cancelAnimationFrame (h : option nat) (b : browser) : browser :=
  match h with
  | Some h =>
      mkBrowser (remove Nat.eq_dec h (pending b)) (next_handle b)
                (listening b) (canvas_in_dom b)
  | None => b
  end.

(** [animate], lines 174-178, with its request for the next frame. *)
Definition animate_cb (elapsed : R) (st : browser * instance)
  : browser * instance :=
  let (b, i) := st in
  let sc := animate elapsed (scene i) in
  let (h, b) := requestAnimationFrame b in
  (b, mkInstance (Some h) sc (disposed i) (group_children i)).

(** The effect, lines 8-198: nothing at all without a container; otherwise
    the canvas is appended, the dataset is loaded into the map group, the
    first [animate()] runs at clock reading 0 and the resize listener is
    registered.  An exception of the load leaves the effect at that point.
    The second component is the instance whose cleanup function is returned,
    if any. *)
Definition useEffect (ref_current : bool) (w : window) (land : value)
           (b : browser) : browser * completion (option instance) :=
  if negb ref_current then (b, Normal None)
  else
    let b := mkBrowser (pending b) (next_handle b) (listening b) true in
    match loadGeojson land [] with
    | Throw => (b, Throw)
    | Normal grp =>
        let (b, i) := animate_cb 0 (b, mkInstance None (mount w) false grp) in
        let b := mkBrowser (pending b) (next_handle b) true
                           (canvas_in_dom b) in
        (b, Normal (Some i))
    end.

Inductive event : Type :=
| Frame (elapsed : R)
| Resize (w : window).

(** A display frame runs every callback that was pending when it began;
    a resize event reaches the handler only while it is registered. *)
Definition deliver (st : browser * instance) (e : event)
  : browser * instance :=
  match e with
  | Frame elapsed =>
      let (b, i) := st in
      fold_left (fun st _ => animate_cb elapsed st) (pending b)
                (mkBrowser [] (next_handle b) (listening b) (canvas_in_dom b),
                 i)
  | Resize w =>
      let (b, i) := st in
      if listening b
      then (b, mkInstance (raf i) (resize w (scene i)) (disposed i)
                          (group_children i))
      else st
  end.

Definition run (events : list event) (st : browser * instance)
  : browser * instance :=
  fold_left deliver events st.

(** The cleanup function, lines 192-197; [ref_current] tells whether the
    container still exists when it runs. *)
Definition cleanup (ref_current : bool) (st : browser * instance)
  : browser * instance :=
  let (b, i) := st in
  let b := cancelAnimationFrame (raf i) b in
  let b := mkBrowser (pending b) (next_handle b) false (canvas_in_dom b) in
  let i := mkInstance (raf i) (scene i) true (group_children i) in
  let b := if ref_current
           then mkBrowser (pending b) (next_handle b) (listening b) false
           else b in
  (b, i).

End Lifecycle.

(* ================================================================== *)
(** ** Vocabulary of the further properties *)

Module Props.

Import WorldMap.

(** The path call a valid entry gives at index 0 and at a later index. *)
Definition move_call (p : value) : path_call :=
  moveTo (x3 (coast_point p)) (y3 (coast_point p)).

Definition line_call (p : value) : path_call :=
  lineTo (x3 (coast_point p)) (y3 (coast_point p)).

(** The path of a ring, entry by entry. *)
Definition shape_path (items : list value) : Shape :=
  match items with
  | [] => []
  | p :: rest =>
      (if valid_pair p then [move_call p] else [])
        ++ map line_call (filter valid_pair rest)
  end.

(** The three kinds of children the geometry builder makes. *)
Definition land_child (o : object3d) : Prop :=
  match o with
  | Mesh shape m _ _ => o = shadow_mesh shape \/ o = land_mesh shape
  | Line pts m =>
      m = coastMat /\ (2 <= List.length pts)%nat
      /\ Forall (fun v => z3 v = VNum 2) pts
  end.

(** How many components of a ring entry are numbers. *)
Definition numeric_components (p : value) : nat :=
  match p with
  | VArr c =>
      List.length
        (filter (fun v => match v with VNum _ => true | _ => false end) c)
  | _ => 0%nat
  end.

(** A JSON value is [undefined] or [null]. *)
Definition nullish (v : value) : bool :=
  match v with
  | VUndef | VNull => true
  | _ => false
  end.

(** The window of the last resize event and the clock reading of the last
    frame of a run, given those at mount. *)
Definition last_window (events : list Lifecycle.event)
           (w0 : Viewport.window) : Viewport.window :=
  fold_left (fun w e => match e with
                        | Lifecycle.Resize w' => w'
                        | Lifecycle.Frame _ => w
                        end) events w0.

Definition last_elapsed (events : list Lifecycle.event) (e0 : R) : R :=
  fold_left (fun t e => match e with
                        | Lifecycle.Frame t' => t'
                        | Lifecycle.Resize _ => t
                        end) events e0.

(** What holds of a mounted component between events: one request pending
    with its handle in [raf], and a scene that depends on the window at
    mount [w0], the last window [lw] and the last clock reading [le]. *)
Definition mounted (w0 lw : Viewport.window) (le : R)
           (grp : list object3d)
           (st : Lifecycle.browser * Lifecycle.instance) : Prop :=
  exists h,
    Lifecycle.pending (fst st) = [h]
    /\ Lifecycle.raf (snd st) = Some h
    /\ (h < Lifecycle.next_handle (fst st))%nat
    /\ Lifecycle.listening (fst st) = true
    /\ Lifecycle.canvas_in_dom (fst st) = true
    /\ Lifecycle.disposed (snd st) = false
    /\ Lifecycle.group_children (snd st) = grp
    /\ Lifecycle.scene (snd st)
       = Viewport.mkState
           (Viewport.mkRenderer
              (Viewport.Math_min (Viewport.devicePixelRatio w0) 2)
              (Viewport.innerWidth lw) (Viewport.innerHeight lw))
           (Viewport.newCamera lw) (Viewport.wrapped_time le).

End Props.

Import WorldMap Spec Samples.

Unset Implicit Arguments.

(* ================================================================== *)
(** ** Geometry Builder *)

Section GeometryBuilder.

Lemma forEach_from_app (S : Type) (f : value -> nat -> S -> S)
      (a b : list value) (i : nat) (s : S) :
  forEach_from f (a ++ b) i s
  = forEach_from f b (i + List.length a) (forEach_from f a i s).
Proof.
  revert i s.
  induction a as [|p a IH]; intros i s; simpl.
  - now rewrite Nat.add_0_r.
  - rewrite IH. f_equal. lia.
Qed.

(** The callback only ever appends to the path. *)
Lemma shape_step_appends (p : value) (i : nat) (shape : Shape) :
  shape_step p i shape = shape ++ shape_step p i [].
Proof.
  unfold shape_step.
  destruct p; try now rewrite app_nil_r.
  destruct (List.length items <? 2)%nat; [now rewrite app_nil_r|].
  destruct (i =? 0)%nat; reflexivity.
Qed.

Lemma forEach_shape_appends (items : list value) (i : nat) (shape : Shape) :
  forEach_from shape_step items i shape
  = shape ++ forEach_from shape_step items i [].
Proof.
  revert i shape.
  induction items as [|p items IH]; intros i shape; simpl.
  - now rewrite app_nil_r.
  - rewrite IH. rewrite (IH _ (shape_step p i [])).
    rewrite (shape_step_appends p i shape). now rewrite app_assoc.
Qed.

Lemma shape_step_invalid (p : value) (i : nat) (shape : Shape) :
  valid_pair p = false -> shape_step p i shape = shape.
Proof.
  unfold valid_pair, shape_step.
  destruct p; try reflexivity.
  intros H. apply Nat.leb_gt in H.
  destruct (Nat.ltb_spec (List.length items) 2); [reflexivity|lia].
Qed.

Lemma drawPolygon_array (items : list value) (mapGroup : list object3d) :
  (3 <= List.length items)%nat ->
  drawPolygon (VArr items) mapGroup
  = mapGroup
      ++ [shadow_mesh (forEach_from shape_step items 0 []);
          land_mesh (forEach_from shape_step items 0 [])]
      ++ coastline items.
Proof.
  intros Hlen. unfold drawPolygon, coastline.
  destruct (Nat.ltb_spec (List.length items) 3); [lia|].
  cbv zeta.
  destruct (1 <? List.length (map coast_point (filter valid_pair items)))%nat;
    repeat rewrite <- app_assoc; reflexivity.
Qed.

(** C1, amended: a ring that is not an array, or an array of fewer than
    three entries, adds nothing to the map group. *)
Theorem drawPolygon_short_ring (ring : value) (mapGroup : list object3d) :
  (forall items, ring = VArr items -> (List.length items < 3)%nat) ->
  drawPolygon ring mapGroup = mapGroup.
Proof.
  intros H. destruct ring; try reflexivity.
  specialize (H items eq_refl). unfold drawPolygon.
  destruct (Nat.ltb_spec (List.length items) 3); [reflexivity|lia].
Qed.

Lemma drawPolygon_short_ring_witness :
  drawPolygon ring_of_two [] = [].
Proof.
  apply (drawPolygon_short_ring ring_of_two []).
  intros items E. injection E as <-. simpl. lia.
Defined.

(** C1 as stated fails: this ring has two valid coordinate pairs, fewer than
    three, and still gets its shadow, its fill and its outline. *)
Lemma few_valid_points_still_drawn :
  (valid_count ring_two_valid < 3)%nat
  /\ drawPolygon ring_two_valid []
     = [shadow_mesh [moveTo (VNum 0) (VNum 0); lineTo (VNum 1) (VNum 1)];
        land_mesh [moveTo (VNum 0) (VNum 0); lineTo (VNum 1) (VNum 1)];
        Line [mkVector3 (VNum 0) (VNum 0) (VNum 2);
              mkVector3 (VNum 1) (VNum 1) (VNum 2)] coastMat]
  /\ drawPolygon ring_two_valid [] <> [].
Proof.
  split; [simpl; lia|].
  split; [reflexivity|discriminate].
Qed.

(** C9: an array ring of three entries or more always adds the shadow mesh
    and the fill mesh, and adds the outline exactly when at least two of its
    entries are valid coordinate pairs. *)
Theorem drawPolygon_long_ring (items : list value)
        (mapGroup : list object3d) :
  (3 <= List.length items)%nat ->
  let shape := forEach_from shape_step items 0 [] in
  drawPolygon (VArr items) mapGroup
  = mapGroup ++ [shadow_mesh shape; land_mesh shape]
      ++ (if (2 <=? valid_count (VArr items))%nat
          then [Line (map coast_point (filter valid_pair items)) coastMat]
          else []).
Proof.
  intros Hlen shape. rewrite drawPolygon_array by assumption.
  unfold coastline, valid_count. rewrite length_map. reflexivity.
Qed.

Lemma drawPolygon_long_ring_witness :
  drawPolygon (VArr ring_of_nulls) [] = [shadow_mesh []; land_mesh []].
Proof.
  apply (drawPolygon_long_ring ring_of_nulls []). simpl. lia.
Defined.

(** C6 as stated fails: the entry [[1, "x"]] has fewer than two numeric
    components, yet it has two components, passes both tests on [p.length]
    and is a vertex of the outline and of the fill path. *)
Lemma non_numeric_pair_still_drawn :
  (Props.numeric_components pair_with_text < 2)%nat
  /\ drawPolygon ring_with_text []
     = [shadow_mesh [moveTo (VNum 0) (VNum 0); lineTo (VNum 1) (VStr "x");
                     lineTo (VNum 2) (VNum 2)];
        land_mesh [moveTo (VNum 0) (VNum 0); lineTo (VNum 1) (VStr "x");
                   lineTo (VNum 2) (VNum 2)];
        Line [mkVector3 (VNum 0) (VNum 0) (VNum 2);
              mkVector3 (VNum 1) (VStr "x") (VNum 2);
              mkVector3 (VNum 2) (VNum 2) (VNum 2)] coastMat]
  /\ In (coast_point pair_with_text)
        [mkVector3 (VNum 0) (VNum 0) (VNum 2);
         mkVector3 (VNum 1) (VStr "x") (VNum 2);
         mkVector3 (VNum 2) (VNum 2) (VNum 2)].
Proof.
  split; [simpl; lia|].
  split; [reflexivity|].
  right. left. reflexivity.
Qed.

(** C6, amended: an entry of the ring that is not an array, or is an array
    of fewer than two components of whatever kind, contributes nothing,
    neither to the outline nor to the fill path, and the entries before and
    after it are processed as if it were absent, the later ones keeping
    their index.  Every entry with two components or more is a vertex of
    the outline points. *)
Theorem invalid_point_skipped (pre post : list value) (p : value)
        (mapGroup : list object3d) :
  valid_pair p = false ->
  (3 <= List.length (pre ++ p :: post))%nat ->
  let shape := forEach_from shape_step pre 0 []
               ++ forEach_from shape_step post (S (List.length pre)) [] in
  let pts := map coast_point (filter valid_pair (pre ++ post)) in
  drawPolygon (VArr (pre ++ p :: post)) mapGroup
  = mapGroup ++ [shadow_mesh shape; land_mesh shape]
      ++ (if (1 <? List.length pts)%nat then [Line pts coastMat] else [])
  /\ (forall q, In q (pre ++ p :: post) -> valid_pair q = true ->
                In (coast_point q) pts).
Proof.
  intros Hp Hlen shape pts. split.
  - rewrite drawPolygon_array by assumption.
    assert (Hs : forEach_from shape_step (pre ++ p :: post) 0 [] = shape).
    { rewrite forEach_from_app. simpl.
      rewrite shape_step_invalid by assumption.
      rewrite forEach_shape_appends. reflexivity. }
    rewrite Hs. unfold coastline.
    assert (Hf : filter valid_pair (pre ++ p :: post)
                 = filter valid_pair (pre ++ post)).
    { rewrite !filter_app. simpl. now rewrite Hp. }
    rewrite Hf. reflexivity.
  - intros q Hin Hq. unfold pts. apply in_map. apply filter_In. split; auto.
    apply in_app_or in Hin. apply in_or_app.
    destruct Hin as [Hin|[<-|Hin]]; auto. congruence.
Qed.

Lemma invalid_point_skipped_witness :
  drawPolygon (VArr ([pt 0 0] ++ VArr [VNum 5] :: [pt 1 1; pt 2 2])) []
  = [] ++ [shadow_mesh [moveTo (VNum 0) (VNum 0); lineTo (VNum 1) (VNum 1);
                        lineTo (VNum 2) (VNum 2)];
           land_mesh [moveTo (VNum 0) (VNum 0); lineTo (VNum 1) (VNum 1);
                      lineTo (VNum 2) (VNum 2)]]
       ++ [Line [mkVector3 (VNum 0) (VNum 0) (VNum 2);
                 mkVector3 (VNum 1) (VNum 1) (VNum 2);
                 mkVector3 (VNum 2) (VNum 2) (VNum 2)] coastMat].
Proof.
  apply (invalid_point_skipped [pt 0 0] [pt 1 1; pt 2 2] (VArr [VNum 5]) []).
  - reflexivity.
  - simpl. lia.
Defined.

End GeometryBuilder.

(* ================================================================== *)
(** ** Features: which rings reach [drawPolygon] *)

Section Features.

Lemma drawRingSet_outer (poly : value) (mapGroup : list object3d) :
  drawRingSet poly mapGroup
  = Normal (match outer_ring poly with
            | Some r => drawPolygon r mapGroup
            | None => mapGroup
            end).
Proof.
  unfold drawRingSet, outer_ring.
  destruct poly as [| | | | |items|]; try reflexivity.
  destruct items as [|r rest]; simpl; [reflexivity|].
  destruct (truthy r); reflexivity.
Qed.

Lemma forEach_drawRingSet (polys : list value) (mapGroup : list object3d) :
  forEach_throwing drawRingSet polys mapGroup
  = Normal (draw_outer_rings polys mapGroup).
Proof.
  revert mapGroup.
  induction polys as [|poly polys IH]; intros mapGroup; simpl.
  - reflexivity.
  - rewrite drawRingSet_outer. simpl. rewrite IH. reflexivity.
Qed.

Lemma draw_outer_rings_ext (polys polys' : list value)
      (mapGroup : list object3d) :
  map outer_ring polys = map outer_ring polys' ->
  draw_outer_rings polys mapGroup = draw_outer_rings polys' mapGroup.
Proof.
  unfold draw_outer_rings. revert polys' mapGroup.
  induction polys as [|a polys IH]; intros [|b polys'] mapGroup E;
    simpl in *; try discriminate; [reflexivity|].
  injection E as Eh Et. rewrite Eh. now apply IH.
Qed.

(** C8: only the first ring of a ring-set reaches [drawPolygon].  A Polygon
    feature draws [coordinates[0]] and nothing else, whatever rings follow
    it; a MultiPolygon feature draws the first ring of each of its polygons,
    in order, so two MultiPolygon geometries whose polygons agree on their
    first rings produce the same children. *)
Theorem only_outer_rings_drawn (f g : value) (mapGroup : list object3d) :
  get f "geometry" = Normal g ->
  truthy g = true ->
  (forall r0 holes,
      get g "type" = Normal (VStr "Polygon") ->
      get g "coordinates" = Normal (VArr (r0 :: holes)) ->
      drawFeature f mapGroup = Normal (drawPolygon r0 mapGroup))
  /\ (forall polys,
         get g "type" = Normal (VStr "MultiPolygon") ->
         get g "coordinates" = Normal (VArr polys) ->
         drawFeature f mapGroup = Normal (draw_outer_rings polys mapGroup)
         /\ forall polys',
             map outer_ring polys' = map outer_ring polys ->
             draw_outer_rings polys' mapGroup
             = draw_outer_rings polys mapGroup).
Proof.
  intros Hg Ht. split.
  - intros r0 holes Hty Hc. unfold drawFeature.
    rewrite Hg. simpl. rewrite Ht. simpl.
    rewrite Hc. simpl. rewrite Hty. simpl. reflexivity.
  - intros polys Hty Hc. split.
    + unfold drawFeature.
      rewrite Hg. simpl. rewrite Ht. simpl.
      rewrite Hc. simpl. rewrite Hty. simpl.
      apply forEach_drawRingSet.
    + intros polys' E. now apply draw_outer_rings_ext.
Qed.

Lemma only_outer_rings_drawn_witness :
  drawFeature polygon_feature [] = Normal (drawPolygon triangle []).
Proof.
  refine (proj1 (only_outer_rings_drawn polygon_feature polygon_geometry
                   [] _ _) triangle [hole] _ _);
    reflexivity.
Defined.

End Features.

(* ================================================================== *)
(** ** [Math.PI] and [Math.sin] *)

Section DoubleFacts.

Local Open Scope R_scope.

(** The partial sums of Machin's series for [atan (/3)] and [atan (/7)]
    place pi within 1.3e-16 above [Math.PI]. *)
Lemma Math_PI_lower : Math_PI + 12 / 100000000000000000 < PI.
Proof.
  pose proof (PI_2_3_7_ineq 8) as [H _].
  unfold PI_2_3_7_tg, tg_alt, Ratan_seq in H.
  cbn -[Rmult Rplus Rdiv Rinv pow INR] in H.
  rewrite ?INR_IZR_INZ in H. cbn -[Rmult Rplus Rdiv Rinv pow IZR] in H.
  unfold Math_PI. lra.
Qed.

Lemma Math_PI_upper : PI < Math_PI + 13 / 100000000000000000.
Proof.
  pose proof (PI_2_3_7_ineq 8) as [_ H].
  unfold PI_2_3_7_tg, tg_alt, Ratan_seq in H.
  cbn -[Rmult Rplus Rdiv Rinv pow INR] in H.
  rewrite ?INR_IZR_INZ in H. cbn -[Rmult Rplus Rdiv Rinv pow IZR] in H.
  unfold Math_PI. lra.
Qed.

Lemma ln_2_pos : 0 < ln 2.
Proof. pose proof ln_lt_2. lra. Qed.

Lemma ln_pow2 (k : Z) : ln (powerRZ 2 k) = IZR k * ln 2.
Proof.
  rewrite powerRZ_Rpower by lra. unfold Rpower. apply ln_exp.
Qed.

Lemma pow2_pos (k : Z) : 0 < powerRZ 2 k.
Proof. apply powerRZ_lt. lra. Qed.

Lemma pow2_le (j k : Z) : (j <= k)%Z -> powerRZ 2 j <= powerRZ 2 k.
Proof.
  intros H. rewrite !powerRZ_Rpower by lra. unfold Rpower.
  destruct (Z.eq_dec j k) as [-> | N]; [lra|].
  apply Rlt_le, exp_increasing.
  apply Rmult_lt_compat_r; [apply ln_2_pos|]. apply IZR_lt. lia.
Qed.

Lemma pow2_Z (n : Z) : (0 <= n)%Z -> IZR (2 ^ n) = powerRZ 2 n.
Proof.
  intros H. rewrite <- (Z2Nat.id n H) at 1 2.
  rewrite <- pow_IZR, pow_powerRZ. reflexivity.
Qed.

Lemma ln_le_compat (x y : R) : 0 < x -> x <= y -> ln x <= ln y.
Proof.
  intros Hx [H | ->]; [|lra]. apply Rlt_le, ln_increasing; assumption.
Qed.

Lemma Int_part_le (r : R) (k : Z) : r <= IZR k -> (Int_part r <= k)%Z.
Proof.
  intros H. destruct (base_Int_part r) as [H1 _].
  apply le_IZR. lra.
Qed.

Lemma Int_part_ge (r : R) (k : Z) : IZR k <= r -> (k <= Int_part r)%Z.
Proof.
  intros H. destruct (base_Int_part r) as [_ H1].
  assert (IZR k - 1 < IZR (Int_part r)) by lra.
  assert (IZR (k - 1) < IZR (Int_part r)) by (rewrite minus_IZR; lra).
  apply lt_IZR in H2. lia.
Qed.

Lemma mag_le (y : R) (k : Z) : 0 < y -> y <= powerRZ 2 k -> (mag y <= k + 1)%Z.
Proof.
  intros H0 H. unfold mag. rewrite Rabs_pos_eq by lra.
  assert (Int_part (ln y / ln 2) <= k)%Z; [|lia].
  apply Int_part_le.
  pose proof ln_2_pos. pose proof (ln_le_compat _ _ H0 H) as Hl.
  rewrite ln_pow2 in Hl.
  apply Rmult_le_reg_r with (ln 2); [assumption|].
  unfold Rdiv. rewrite Rmult_assoc, Rinv_l by lra. lra.
Qed.

Lemma mag_ge (y : R) (k : Z) : powerRZ 2 k <= y -> (k + 1 <= mag y)%Z.
Proof.
  intros H. pose proof (pow2_pos k) as Hp.
  unfold mag. rewrite Rabs_pos_eq by lra.
  assert (k <= Int_part (ln y / ln 2))%Z; [|lia].
  apply Int_part_ge.
  pose proof ln_2_pos. pose proof (ln_le_compat _ _ Hp H) as Hl.
  rewrite ln_pow2 in Hl.
  apply Rmult_le_reg_r with (ln 2); [assumption|].
  unfold Rdiv. rewrite Rmult_assoc, Rinv_l by lra. lra.
Qed.

Lemma mag_lower (y : R) : 0 < y -> powerRZ 2 (mag y - 1) <= y.
Proof.
  intros H0. unfold mag.
  rewrite Rabs_pos_eq by lra.
  replace (Int_part (ln y / ln 2) + 1 - 1)%Z with (Int_part (ln y / ln 2)) by lia.
  destruct (base_Int_part (ln y / ln 2)) as [H1 _].
  pose proof ln_2_pos as H2.
  assert (Hl : IZR (Int_part (ln y / ln 2)) * ln 2 <= ln y).
  { apply Rmult_le_compat_r with (r := ln 2) in H1; [|lra].
    unfold Rdiv in H1. rewrite Rmult_assoc, Rinv_l in H1 by lra. lra. }
  rewrite powerRZ_Rpower by lra. unfold Rpower.
  rewrite <- (exp_ln y H0) at 2.
  destruct Hl as [Hl|Hl]; [apply Rlt_le, exp_increasing; exact Hl|rewrite Hl; lra].
Qed.

Lemma nearest_even_le (r : R) (K : Z) : r <= IZR K -> (nearest_even r <= K)%Z.
Proof.
  intros H. unfold nearest_even. cbv zeta.
  pose proof (Int_part_le r K H) as Hf.
  destruct (base_Int_part r) as [H1 H2].
  destruct (Rlt_dec (r - IZR (Int_part r)) (1 / 2)); [exact Hf|].
  assert (Int_part r <> K).
  { intros E. rewrite E in *. lra. }
  destruct (Rlt_dec (1 / 2) (r - IZR (Int_part r))); [lia|].
  destruct (Z.even (Int_part r)); lia.
Qed.

Lemma nearest_even_ge (r : R) (K : Z) : IZR K <= r -> (K <= nearest_even r)%Z.
Proof.
  intros H. unfold nearest_even. cbv zeta.
  pose proof (Int_part_ge r K H) as Hf.
  destruct (Rlt_dec (r - IZR (Int_part r)) (1 / 2)); [exact Hf|].
  destruct (Rlt_dec (1 / 2) (r - IZR (Int_part r))); [lia|].
  destruct (Z.even (Int_part r)); lia.
Qed.

Lemma round_double_0 : round_double 0 = 0.
Proof.
  unfold round_double. rewrite Rmult_0_l.
  assert (nearest_even 0 = 0%Z).
  { apply Z.le_antisymm; [apply nearest_even_le|apply nearest_even_ge]; simpl; lra. }
  rewrite H. simpl. lra.
Qed.

Lemma round_double_nonneg (y : R) : 0 <= y -> 0 <= round_double y.
Proof.
  intros H. unfold round_double.
  apply Rmult_le_pos; [|apply Rlt_le, pow2_pos].
  apply IZR_le. apply nearest_even_ge. simpl.
  apply Rmult_le_pos; [assumption|apply Rlt_le, pow2_pos].
Qed.

Lemma round_double_le_pow2 (y : R) (k : Z) :
  (-1074 <= k)%Z -> y <= powerRZ 2 k -> round_double y <= powerRZ 2 k.
Proof.
  intros Hk Hy. unfold round_double.
  pose proof (pow2_pos (fexp y)) as Hp. pose proof (pow2_pos (- fexp y)) as Hn.
  pose proof (pow2_pos k) as Hpk.
  destruct (Rle_lt_dec y 0) as [Hle|Hpos].
  - assert (nearest_even (y * powerRZ 2 (- fexp y)) <= 0)%Z.
    { apply nearest_even_le. simpl. nra. }
    apply IZR_le in H. simpl in H. nra.
  - assert (Hf : (fexp y <= k)%Z).
    { unfold fexp. pose proof (mag_le y k Hpos Hy). lia. }
    assert (Hn' : (nearest_even (y * powerRZ 2 (- fexp y)) <= 2 ^ (k - fexp y))%Z).
    { apply nearest_even_le. rewrite pow2_Z by lia.
      replace (k - fexp y)%Z with (k + - fexp y)%Z by lia.
      rewrite powerRZ_add by lra. nra. }
    apply IZR_le in Hn'. rewrite pow2_Z in Hn' by lia.
    replace (powerRZ 2 k) with (powerRZ 2 (k - fexp y) * powerRZ 2 (fexp y)).
    + apply Rmult_le_compat_r; lra.
    + rewrite <- powerRZ_add by lra. f_equal. lia.
Qed.

Lemma round_double_pos (y : R) :
  powerRZ 2 (-1074) <= y -> 0 < round_double y.
Proof.
  intros Hy. pose proof (pow2_pos (-1074)) as H0.
  assert (Hpos : 0 < y) by lra.
  pose proof (pow2_pos (fexp y)) as Hp.
  assert (Hge : powerRZ 2 (fexp y) <= y).
  { unfold fexp. destruct (Z.max_spec (mag y - 53) (-1074)) as [[_ ->]|[_ ->]].
    - exact Hy.
    - apply Rle_trans with (powerRZ 2 (mag y - 1)); [apply pow2_le; lia|].
      apply mag_lower. exact Hpos. }
  unfold round_double.
  assert (1 <= nearest_even (y * powerRZ 2 (- fexp y)))%Z.
  { apply nearest_even_ge. simpl.
    rewrite powerRZ_neg'.
    apply Rmult_le_reg_r with (powerRZ 2 (fexp y)); [exact Hp|].
    rewrite Rmult_assoc, Rinv_l by lra. lra. }
  apply IZR_le in H. nra.
Qed.

Lemma mag_1 : mag 1 = 1%Z.
Proof.
  apply Z.le_antisymm.
  - apply (mag_le 1 0); simpl; lra.
  - apply (mag_ge 1 0). simpl; lra.
Qed.

Lemma pow2_53 : powerRZ 2 53 = 9007199254740992.
Proof. simpl. lra. Qed.
Lemma pow2_52 : powerRZ 2 52 = 4503599627370496.
Proof. simpl. lra. Qed.
Lemma pow2_m53 : powerRZ 2 (-53) = / 9007199254740992.
Proof. change (-53)%Z with (- (53))%Z. rewrite powerRZ_neg', pow2_53. reflexivity. Qed.
Lemma pow2_m52 : powerRZ 2 (-52) = / 4503599627370496.
Proof. change (-52)%Z with (- (52))%Z. rewrite powerRZ_neg', pow2_52. reflexivity. Qed.

Lemma round_double_1 (y : R) :
  1 - / 18014398509481984 < y -> y <= 1 -> round_double y = 1.
Proof.
  intros Hl [Hlt | ->].
  - assert (Hm : mag y = 0%Z).
    { apply Z.le_antisymm.
      - assert (mag y <= 0 \/ 1 <= mag y)%Z as [H|H] by lia; [exact H|].
        exfalso. pose proof (mag_lower y ltac:(lra)) as Hlow.
        pose proof (pow2_le 0 (mag y - 1) ltac:(lia)) as H2. simpl in H2. lra.
      - apply (mag_ge y (-1)). simpl. lra. }
    assert (Hf : fexp y = (-53)%Z) by (unfold fexp; rewrite Hm; reflexivity).
    unfold round_double. rewrite Hf. change (- (-53))%Z with 53%Z.
    rewrite pow2_53.
    assert (Hn : nearest_even (y * 9007199254740992) = 9007199254740992%Z).
    { unfold nearest_even. cbv zeta.
      assert (Hi : Int_part (y * 9007199254740992) = 9007199254740991%Z).
      { symmetry. apply Int_part_spec. lra. }
      rewrite Hi.
      destruct (Rlt_dec (y * 9007199254740992 - 9007199254740991) (1 / 2)); [lra|].
      destruct (Rlt_dec (1 / 2) (y * 9007199254740992 - 9007199254740991)); [reflexivity|lra]. }
    rewrite Hn, pow2_m53. lra.
  - assert (Hf : fexp 1 = (-52)%Z) by (unfold fexp; rewrite mag_1; reflexivity).
    unfold round_double. rewrite Hf. change (- (-52))%Z with 52%Z.
    rewrite pow2_52, Rmult_1_l.
    assert (Hn : nearest_even 4503599627370496 = 4503599627370496%Z).
    { apply Z.le_antisymm; [apply nearest_even_le|apply nearest_even_ge]; lra. }
    rewrite Hn, pow2_m52. lra.
Qed.

Lemma sin_Math_PI_bounds :
  6 / 100000000000000000 < sin Math_PI < 13 / 100000000000000000.
Proof.
  pose proof Math_PI_lower as Hl. pose proof Math_PI_upper as Hu.
  rewrite <- (sin_PI_x Math_PI).
  set (d := PI - Math_PI).
  assert (Hd : 12 / 100000000000000000 < d < 13 / 100000000000000000)
    by (unfold d; lra).
  split.
  - assert (Hs : sin_lb d <= sin d).
    { apply SIN; unfold d; unfold Math_PI in *; lra. }
    assert (E : sin_lb d
                = d - d * d * d / 6 + d * d * d * d * d / 120
                  - d * d * d * d * d * d * d / 5040).
    { unfold sin_lb, sin_approx, sin_term. simpl. field. }
    rewrite E in Hs.
    assert (H2 : 0 <= d * d <= 1 / 4) by nra.
    assert (H3 : 0 <= d * d * d <= d / 4) by nra.
    assert (H4 : 0 <= d * d * d * d <= 1) by nra.
    assert (H5 : 0 <= d * d * d * d * d) by nra.
    assert (H7 : d * d * d * d * d * d * d <= d * d * d) by nra.
    lra.
  - pose proof (sin_lt_x d ltac:(lra)). lra.
Qed.

Lemma sin_half_Math_PI_bounds :
  1 - / 18014398509481984 < sin (Math_PI / 2) <= 1.
Proof.
  pose proof Math_PI_lower as Hl. pose proof Math_PI_upper as Hu.
  split; [|apply SIN_bound].
  replace (Math_PI / 2) with (PI / 2 - (PI - Math_PI) / 2) by lra.
  rewrite sin_shift.
  set (a := (PI - Math_PI) / 2).
  assert (Ha : 0 < a < 1 / 10000000000000000) by (unfold a; lra).
  assert (Hc : cos_lb a <= cos a).
  { apply COS; pose proof PI_RGT_0; unfold a in *; unfold Math_PI in *; lra. }
  assert (E : cos_lb a
              = 1 - a * a / 2 + a * a * a * a / 24
                - a * a * a * a * a * a / 720).
  { unfold cos_lb, cos_approx, cos_term. simpl. field. }
  rewrite E in Hc.
  assert (H2 : 0 <= a * a <= 1 / 100000000000000000000000000000000) by nra.
  assert (H4 : 0 <= a * a * a * a <= 1) by nra.
  assert (H6 : a * a * a * a * a * a <= a * a) by nra.
  lra.
Qed.

Lemma pow2_m60 : powerRZ 2 (-60) = / 1152921504606846976.
Proof.
  change (-60)%Z with (- (60))%Z. rewrite powerRZ_neg'. f_equal.
  simpl. lra.
Qed.

(** [Math.sin(0)], [Math.sin(Math.PI / 2)] and [Math.sin(Math.PI)]. *)
Lemma Math_sin_0 : Math_sin 0 = 0.
Proof. unfold Math_sin. rewrite sin_0. apply round_double_0. Qed.

Lemma Math_sin_half_PI : Math_sin (Math_PI / 2) = 1.
Proof.
  unfold Math_sin. destruct sin_half_Math_PI_bounds as [H1 H2].
  apply round_double_1; assumption.
Qed.

Lemma Math_sin_PI : 0 < Math_sin Math_PI <= / 4503599627370496.
Proof.
  unfold Math_sin. destruct sin_Math_PI_bounds as [H1 H2]. split.
  - apply round_double_pos.
    apply Rle_trans with (powerRZ 2 (-60)); [apply pow2_le; lia|].
    rewrite pow2_m60. lra.
  - rewrite <- pow2_m52. apply round_double_le_pow2; [lia|].
    rewrite pow2_m52. lra.
Qed.

Lemma Math_sin_le_1 (x : R) : Math_sin x <= 1.
Proof.
  unfold Math_sin. change 1 with (powerRZ 2 0).
  apply round_double_le_pow2; [lia|]. simpl. apply SIN_bound.
Qed.

End DoubleFacts.

(* ================================================================== *)
(** ** Arc Path Generator *)

Section ArcPath.

Local Open Scope R_scope.

Lemma arc_loop_runs (n : nat) :
  forall (fuel i : nat) (b : arc_buffers),
    (i + n = S arcSteps)%nat -> (n <= fuel)%nat ->
    arc_loop fuel i b
    = Some (mkArc (arcPts b ++ map sample (seq i n))
                  (arcProg b ++ map progress (seq i n))).
Proof.
  induction n as [|n IH]; intros fuel i b Hi Hf.
  - assert (Hlt : (i <=? arcSteps)%nat = false) by (apply Nat.leb_gt; lia).
    destruct fuel; simpl; rewrite Hlt; simpl; rewrite !app_nil_r;
      now destruct b.
  - assert (Hle : (i <=? arcSteps)%nat = true) by (apply Nat.leb_le; lia).
    destruct fuel as [|fuel]; [lia|].
    simpl. rewrite Hle.
    rewrite IH by lia. unfold arc_body. simpl.
    rewrite <- !app_assoc. reflexivity.
Qed.

(** The loop ends, and the buffers hold one entry per step [0..arcSteps]. *)
Lemma travelArc_closed_form (fuel : nat) :
  (arcSteps < fuel)%nat ->
  travelArc fuel
  = Some (mkArc (map sample (seq 0 (S arcSteps)))
                (map progress (seq 0 (S arcSteps)))).
Proof.
  intros Hf. unfold travelArc.
  rewrite (arc_loop_runs (S arcSteps)) by lia. reflexivity.
Qed.

Lemma nth_progress (i : nat) (d : R) :
  (i <= arcSteps)%nat ->
  nth i (map progress (seq 0 (S arcSteps))) d = INR i / 160.
Proof.
  intros Hi.
  rewrite (nth_indep _ d (progress 0)) by (rewrite length_map, length_seq; lia).
  rewrite map_nth, seq_nth by lia.
  unfold progress, arcSteps. simpl (0 + i)%nat.
  replace (INR 160) with 160 by (simpl; lra). reflexivity.
Qed.

Lemma nth_sample (i : nat) (d : Vector3 R) :
  (i <= arcSteps)%nat ->
  nth i (map sample (seq 0 (S arcSteps))) d = sample i.
Proof.
  intros Hi.
  rewrite (nth_indep _ d (sample 0)) by (rewrite length_map, length_seq; lia).
  rewrite map_nth, seq_nth by lia. reflexivity.
Qed.

(** C3: with 160 steps the generator ends with exactly 161 samples; sample
    [i] has progress [i/160], so the progress values increase strictly from
    0 to 1; x is the linear interpolation of 10 and 120 at [i/160], y the
    linear interpolation of 45 and 25 plus the lift
    [18 * Math.sin (t * Math.PI)], and
    z is 6. *)
Theorem travelArc_samples (fuel : nat) :
  (arcSteps < fuel)%nat ->
  exists b,
    travelArc fuel = Some b
    /\ List.length (arcPts b) = 161%nat
    /\ List.length (arcProg b) = 161%nat
    /\ (forall i d, (i <= 160)%nat -> nth i (arcProg b) d = INR i / 160)
    /\ (forall i j d, (i < j <= 160)%nat ->
                      nth i (arcProg b) d < nth j (arcProg b) d)
    /\ nth 0 (arcProg b) 1 = 0
    /\ nth 160 (arcProg b) 0 = 1
    /\ (forall i d, (i <= 160)%nat ->
          let t := INR i / 160 in
          let p := nth i (arcPts b) d in
          x3 p = 10 + (120 - 10) * t
          /\ y3 p = 45 + (25 - 45) * t + 18 * Math_sin (t * Math_PI)
          /\ z3 p = 6).
Proof.
  intros Hf. eexists. split; [apply travelArc_closed_form; exact Hf|].
  cbn [arcPts arcProg].
  split; [now rewrite length_map, length_seq|].
  split; [now rewrite length_map, length_seq|].
  split; [intros i d Hi; now apply nth_progress|].
  split.
  { intros i j d [Hij Hj]. rewrite !nth_progress by (unfold arcSteps; lia).
    apply lt_INR in Hij. lra. }
  split; [rewrite nth_progress by (unfold arcSteps; lia); simpl; lra|].
  split.
  { rewrite nth_progress by (unfold arcSteps; lia).
    replace (INR 160) with 160 by (simpl; lra). lra. }
  intros i d Hi. cbv zeta. rewrite nth_sample by exact Hi.
  unfold sample, lerp, arc_lift, arc_start, arc_end, project.
  cbn [x3 y3 z3 x2 y2 nth].
  replace (INR arcSteps) with 160 by (unfold arcSteps; simpl; lra).
  repeat split; lra.
Qed.

Lemma travelArc_samples_witness :
  exists b, travelArc 161 = Some b /\ List.length (arcPts b) = 161%nat.
Proof.
  destruct (travelArc_samples 161) as [b [H1 [H2 _]]].
  - unfold arcSteps. lia.
  - exists b. split; assumption.
Defined.

(** C7 as stated fails: at [t = 1] the lift is not 0, and the last sample
    is not at the y coordinate of the end point but above it. *)
Lemma last_sample_above_endpoint :
  arc_lift 1 <> 0
  /\ exists b,
      travelArc (S (S arcSteps)) = Some b
      /\ y3 (nth 160 (arcPts b) (mkVector3 0 0 0)) <> y2 arc_end
      /\ y2 arc_end < y3 (nth 160 (arcPts b) (mkVector3 0 0 0)).
Proof.
  assert (L1 : 0 < arc_lift 1).
  { unfold arc_lift. rewrite Rmult_1_l.
    destruct Math_sin_PI as [H _]. lra. }
  split; [lra|].
  eexists. split; [apply travelArc_closed_form; lia|].
  cbn [arcPts]. rewrite nth_sample by (unfold arcSteps; lia).
  unfold sample. cbn [y3].
  replace (INR 160 / INR arcSteps) with 1.
  2:{ unfold arcSteps. replace (INR 160) with 160 by (simpl; lra). lra. }
  unfold lerp, arc_end, arc_start, project. cbn [y2 nth].
  split; lra.
Qed.

(** C7, amended: the lift [Math.sin (t * Math.PI) * 18] is exactly 0 at
    [t = 0] and exactly 18 at [t = 1/2], and nowhere more than 18, so the
    first sample has the y coordinate of the start point, 45.  At [t = 1]
    it is not 0 but a positive number below 1e-14, [Math.PI] being the
    double just below pi, so the last sample lies that much above the y
    coordinate of the end point, 25. *)
Theorem arc_lift_exact_values :
  arc_lift 0 = 0
  /\ arc_lift 0.5 = 18
  /\ (forall t, arc_lift t <= 18)
  /\ 0 < arc_lift 1 < / 100000000000000
  /\ exists b,
      travelArc (S (S arcSteps)) = Some b
      /\ y3 (nth 0 (arcPts b) (mkVector3 0 0 0)) = y2 arc_start
      /\ y2 arc_start = 45
      /\ y2 arc_end < y3 (nth 160 (arcPts b) (mkVector3 0 0 0))
         < y2 arc_end + / 100000000000000
      /\ y2 arc_end = 25.
Proof.
  assert (L0 : arc_lift 0 = 0).
  { unfold arc_lift. rewrite Rmult_0_l, Math_sin_0. lra. }
  assert (L1 : 0 < arc_lift 1 < / 100000000000000).
  { unfold arc_lift. rewrite Rmult_1_l.
    destruct Math_sin_PI as [H1 H2]. lra. }
  split; [exact L0|].
  split.
  { unfold arc_lift. replace (0.5 * Math_PI) with (Math_PI / 2) by lra.
    rewrite Math_sin_half_PI. lra. }
  split.
  { intros t. unfold arc_lift. pose proof (Math_sin_le_1 (t * Math_PI)). lra. }
  split; [exact L1|].
  eexists. split; [apply travelArc_closed_form; lia|].
  cbn [arcPts].
  rewrite !nth_sample by (unfold arcSteps; lia).
  unfold sample. cbn [y3].
  replace (INR 0 / INR arcSteps) with 0 by (simpl; lra).
  replace (INR 160 / INR arcSteps) with 1.
  2:{ unfold arcSteps. replace (INR 160) with 160 by (simpl; lra). lra. }
  rewrite L0. unfold lerp, arc_start, arc_end, project. cbn [y2 nth].
  repeat split; lra.
Qed.

End ArcPath.

(* ================================================================== *)
(** ** Animation Driver *)

Section AnimationDriver.

Import Viewport GLSL.
Local Open Scope R_scope.

Lemma trunc_nonneg (x : R) : 0 <= x -> trunc x = Int_part x.
Proof.
  intros Hx. unfold trunc. destruct (Rle_dec 0 x); [reflexivity|contradiction].
Qed.

(** On a dividend that is not negative, [% 1] is the fractional part. *)
Lemma js_rem_1_frac (x : R) : 0 <= x -> js_rem x 1 = frac_part x.
Proof.
  intros Hx. unfold js_rem, frac_part.
  rewrite Rdiv_1_r, trunc_nonneg by exact Hx. lra.
Qed.

(** C4: for an elapsed time that is not negative, the value the tick writes
    to the uniform, [(elapsed * 0.25) % 1], is in [0, 1). *)
Theorem wrapped_time_in_unit_interval (elapsed : R) (s : state) :
  0 <= elapsed ->
  0 <= wrapped_time elapsed < 1
  /\ st_time (animate elapsed s) = wrapped_time elapsed.
Proof.
  intros He. split; [|reflexivity].
  unfold wrapped_time. rewrite js_rem_1_frac by lra.
  destruct (base_fp (elapsed * 0.25)) as [H0 H1]. lra.
Qed.

Lemma wrapped_time_in_unit_interval_witness :
  0 <= wrapped_time 5 < 1.
Proof.
  refine (proj1 (wrapped_time_in_unit_interval 5
                   (mount (mkWindow 800 600 1)) _)).
  lra.
Defined.

Lemma clamp_low (x : R) : x <= 0 -> clamp x 0 1 = 0.
Proof.
  intros H. unfold clamp, Rmin, Rmax.
  destruct (Rle_dec x 0); [|contradiction].
  destruct (Rle_dec 0 1); lra.
Qed.

Lemma clamp_high (x : R) : 1 <= x -> clamp x 0 1 = 1.
Proof.
  intros H. unfold clamp, Rmin, Rmax.
  destruct (Rle_dec x 0); [lra|].
  destruct (Rle_dec x 1); lra.
Qed.

Lemma smoothstep_below (e0 e1 x : R) :
  e0 < e1 -> x <= e0 -> smoothstep e0 e1 x = 0.
Proof.
  intros He Hx. unfold smoothstep.
  rewrite clamp_low; [lra|].
  apply Rmult_le_reg_r with (e1 - e0); [lra|].
  unfold Rdiv. rewrite Rmult_assoc, Rinv_l by lra. lra.
Qed.

Lemma smoothstep_above (e0 e1 x : R) :
  e0 < e1 -> e1 <= x -> smoothstep e0 e1 x = 1.
Proof.
  intros He Hx. unfold smoothstep.
  rewrite clamp_high; [lra|].
  apply Rmult_le_reg_r with (e1 - e0); [lra|].
  unfold Rdiv. rewrite Rmult_assoc, Rinv_l by lra. lra.
Qed.

(** The first factor of the product never changes it: where the second
    factor is not zero the first one is already 1. *)
Lemma glow_is_second_factor (time vP : R) :
  glow time vP = smoothstep time (time + 0.2) vP.
Proof.
  unfold glow. cbv zeta.
  destruct (Rle_lt_dec vP time) as [Hle|Hlt].
  - rewrite (smoothstep_below time (time + 0.2)) by lra. lra.
  - rewrite (smoothstep_above (time - 0.05) time) by lra. lra.
Qed.

(** Past the upper edge both factors are 1: the arc stays fully lit from
    [time + 0.2] to its end. *)
Lemma glow_past_window (time vP : R) :
  time + 0.2 <= vP -> glow time vP = 1.
Proof.
  intros H. rewrite glow_is_second_factor. apply smoothstep_above; lra.
Qed.

(** Up to [time] the arc is dark. *)
Lemma glow_before_time (time vP : R) :
  vP <= time -> glow time vP = 0.
Proof.
  intros H. rewrite glow_is_second_factor. apply smoothstep_below; lra.
Qed.

(** C2, the code at wrapped time 0.25 and the last arc sample (progress 1,
    far beyond [time + 0.2 = 0.45]): the intensity is 1, not 0, and the
    fragment is fully opaque warm-orange. *)
Theorem glow_at_arc_end :
  wrapped_time 1 = 0.25
  /\ glow 0.25 1 = 1
  /\ fragmentShader 0.25 1 = (1.0 * 1, 0.55 * 1, 0.15 * 1, 1).
Proof.
  assert (Hg : glow 0.25 1 = 1) by (apply glow_past_window; lra).
  split.
  { unfold wrapped_time. rewrite js_rem_1_frac by lra.
    unfold frac_part.
    replace (Int_part (1 * 0.25)) with 0%Z; [lra|].
    apply Int_part_spec. simpl. lra. }
  split; [exact Hg|].
  unfold fragmentShader. rewrite Hg. reflexivity.
Qed.

End AnimationDriver.

(* ================================================================== *)
(** ** Viewport Manager and renderer set-up *)

Section ViewportManager.

Import Viewport.
Local Open Scope R_scope.

(** The resize handler on any camera. *)
Lemma resize_frame (w : window) (s : state) :
  let c := st_camera s in
  let c' := st_camera (resize w s) in
  top c' = top c /\ bottom c' = bottom c
  /\ near c' = near c /\ far c' = far c
  /\ position_z c' = position_z c.
Proof. cbv zeta. unfold resize. simpl. repeat split. Qed.

(** The vertical bounds and the depth range from mount through any number of
    resize events. *)
Lemma vertical_bounds_invariant (events : list window) (w0 : window) :
  let c := st_camera (fold_left (fun s w => resize w s) events (mount w0)) in
  top c = 90 /\ bottom c = -90 /\ near c = -100 /\ far c = 100
  /\ position_z c = 10.
Proof.
  cbv zeta.
  assert (H : forall s,
             (let c := st_camera s in
              top c = 90 /\ bottom c = -90 /\ near c = -100 /\ far c = 100
              /\ position_z c = 10) ->
             let c := st_camera (fold_left (fun s w => resize w s) events s) in
             top c = 90 /\ bottom c = -90 /\ near c = -100 /\ far c = 100
             /\ position_z c = 10).
  { induction events as [|w events IH]; intros s Hs; simpl; [exact Hs|].
    apply IH. exact Hs. }
  apply H. unfold mount, newCamera, WORLD_HEIGHT. simpl.
  repeat split; lra.
Qed.

(** C5: a resize event to width [w] and height [h > 0] leaves top and bottom
    as they are, which from mount on is 90 and -90, sets left and right to
    [-180 * (w / h)] and [180 * (w / h)], leaves the depth range and the
    camera position alone, and resizes the output surface to [w] by [h]. *)
Theorem resize_keeps_vertical_bounds
        (w0 : window) (events : list window) (w h dpr : R) :
  0 < h ->
  let s := fold_left (fun s w => resize w s) events (mount w0) in
  let s' := resize (mkWindow w h dpr) s in
  top (st_camera s') = 90 /\ bottom (st_camera s') = -90
  /\ top (st_camera s') = top (st_camera s)
  /\ bottom (st_camera s') = bottom (st_camera s)
  /\ left (st_camera s') = -180 * (w / h)
  /\ right (st_camera s') = 180 * (w / h)
  /\ right (st_camera s') * h = 180 * w
  /\ near (st_camera s') = near (st_camera s)
  /\ far (st_camera s') = far (st_camera s)
  /\ position_z (st_camera s') = position_z (st_camera s)
  /\ width (st_renderer s') = w /\ height (st_renderer s') = h
  /\ pixelRatio (st_renderer s') = pixelRatio (st_renderer s)
  /\ st_time s' = st_time s.
Proof.
  intros Hh s s'.
  destruct (vertical_bounds_invariant events w0) as [Ht [Hb _]].
  fold s in Ht, Hb.
  unfold s'. unfold resize. cbn.
  unfold WORLD_WIDTH.
  repeat split; try assumption; try lra.
  assert (E : w / h * h = w) by (field; lra).
  nra.
Qed.

Lemma resize_keeps_vertical_bounds_witness :
  top (st_camera (resize (mkWindow 1600 800 1) (mount (mkWindow 800 600 2))))
  = 90
  /\ bottom (st_camera
               (resize (mkWindow 1600 800 1) (mount (mkWindow 800 600 2))))
     = -90.
Proof.
  destruct (resize_keeps_vertical_bounds
              (mkWindow 800 600 2) [] 1600 800 1) as [H1 [H2 _]].
  - lra.
  - split; [exact H1|exact H2].
Defined.

(** C10: the pixel ratio handed to the renderer is
    [min (devicePixelRatio, 2)]: for a density [d >= 0] it is at most 2, and
    it is [d] itself whenever [d <= 2]. *)
Theorem pixel_ratio_capped (wd ht d : R) :
  0 <= d ->
  let r := st_renderer (mount (mkWindow wd ht d)) in
  pixelRatio r = Rmin d 2
  /\ pixelRatio r <= 2
  /\ (d <= 2 -> pixelRatio r = d)
  /\ (2 < d -> pixelRatio r = 2).
Proof.
  intros Hd r. unfold r, mount, newRenderer, Math_min. cbn.
  split; [reflexivity|].
  split; [apply Rmin_r|].
  split; intros H.
  - apply Rmin_left. exact H.
  - apply Rmin_right. lra.
Qed.

Lemma pixel_ratio_capped_witness :
  pixelRatio (st_renderer (mount (mkWindow 800 600 3))) <= 2.
Proof.
  destruct (pixel_ratio_capped 800 600 3) as [_ [H _]].
  - lra.
  - exact H.
Defined.

End ViewportManager.

(* ================================================================== *)
(** ** Further properties of the geometry builder *)

Section GeometryBuilderMore.

Import Props.

Lemma drawPolygon_appends (ring : value) (mapGroup : list object3d) :
  drawPolygon ring mapGroup = mapGroup ++ drawPolygon ring [].
Proof.
  destruct ring; try (simpl; now rewrite app_nil_r).
  unfold drawPolygon.
  destruct (List.length items <? 3)%nat; [now rewrite app_nil_r|].
  cbv zeta.
  destruct (1 <? List.length (map coast_point (filter valid_pair items)))%nat;
    simpl; repeat rewrite <- app_assoc; reflexivity.
Qed.

Lemma drawPolygon_children (ring : value) :
  drawPolygon ring [] = []
  \/ exists items,
      ring = VArr items /\ (3 <= List.length items)%nat
      /\ drawPolygon ring []
         = [shadow_mesh (forEach_from shape_step items 0 []);
            land_mesh (forEach_from shape_step items 0 [])]
             ++ coastline items.
Proof.
  destruct ring; try (left; reflexivity).
  destruct (Nat.ltb_spec (List.length items) 3) as [Hlt|Hge].
  - left. unfold drawPolygon.
    destruct (Nat.ltb_spec (List.length items) 3); [reflexivity|lia].
  - right. exists items. split; [reflexivity|]. split; [exact Hge|].
    now rewrite drawPolygon_array.
Qed.

Lemma coastline_land_child (items : list value) :
  Forall land_child (coastline items).
Proof.
  unfold coastline.
  destruct (Nat.ltb_spec 1
              (List.length (map coast_point (filter valid_pair items))));
    constructor; [|constructor].
  simpl. split; [reflexivity|]. split; [lia|].
  apply Forall_forall. intros v Hv. apply in_map_iff in Hv.
  destruct Hv as [p [<- Hp]]. apply filter_In in Hp. destruct Hp as [_ Hp].
  destruct p; try discriminate. reflexivity.
Qed.

Lemma drawPolygon_land_children (ring : value) :
  Forall land_child (drawPolygon ring []).
Proof.
  destruct (drawPolygon_children ring) as [E|[items [_ [_ E]]]]; rewrite E.
  - constructor.
  - constructor; [simpl; auto|]. constructor; [simpl; auto|].
    apply coastline_land_child.
Qed.

(** X1: One call adds no child, or the shadow and the fill, or these two and the
    outline, after the children already there, which stay as they are; each
    outline has at least two points, all at depth 2. *)
Theorem drawPolygon_adds_only (ring : value) (mapGroup : list object3d) :
  drawPolygon ring mapGroup = mapGroup ++ drawPolygon ring []
  /\ (List.length (drawPolygon ring []) = 0%nat
      \/ List.length (drawPolygon ring []) = 2%nat
      \/ List.length (drawPolygon ring []) = 3%nat)
  /\ Forall land_child (drawPolygon ring []).
Proof.
  split; [apply drawPolygon_appends|].
  split; [|apply drawPolygon_land_children].
  destruct (drawPolygon_children ring) as [E|[items [_ [_ E]]]]; rewrite E.
  - left; reflexivity.
  - unfold coastline.
    destruct (1 <? List.length (map coast_point (filter valid_pair items)))%nat;
      simpl; auto.
Qed.

Lemma shape_step_line (p : value) (i : nat) :
  valid_pair p = true ->
  shape_step p (S i) [] = [line_call p] /\ shape_step p 0 [] = [move_call p].
Proof.
  unfold valid_pair, shape_step, line_call, move_call, coast_point.
  destruct p; try discriminate. intros H. apply Nat.leb_le in H.
  destruct (Nat.ltb_spec (List.length items) 2); [lia|]. split; reflexivity.
Qed.

Lemma shape_tail_calls (items : list value) (i : nat) :
  forEach_from shape_step items (S i) []
  = map line_call (filter valid_pair items).
Proof.
  revert i. induction items as [|p items IH]; intros i; simpl; [reflexivity|].
  rewrite forEach_shape_appends, IH.
  destruct (valid_pair p) eqn:Hp.
  - now rewrite (proj1 (shape_step_line p i Hp)).
  - now rewrite shape_step_invalid.
Qed.

Lemma forEach_shape_path (items : list value) :
  forEach_from shape_step items 0 [] = shape_path items.
Proof.
  destruct items as [|p rest]; simpl; [reflexivity|].
  rewrite forEach_shape_appends, shape_tail_calls.
  destruct (valid_pair p) eqn:Hp.
  - now rewrite (proj2 (shape_step_line p 0 Hp)).
  - now rewrite shape_step_invalid.
Qed.

(** X2: The fill path of a ring: one call per valid entry, in ring order;
    [moveTo] is issued only for entry 0, so a ring whose first entry is
    rejected has a path of [lineTo] calls alone. *)
Theorem shape_path_of_ring (items : list value) :
  forEach_from shape_step items 0 [] = shape_path items
  /\ List.length (shape_path items)
     = List.length (filter valid_pair items)
  /\ (forall p rest, items = p :: rest -> valid_pair p = false ->
        shape_path items = map line_call (filter valid_pair rest)).
Proof.
  split; [|split].
  - apply forEach_shape_path.
  - destruct items as [|p rest]; simpl; [reflexivity|].
    destruct (valid_pair p); simpl; now rewrite length_map.
  - intros p rest -> Hp. simpl. now rewrite Hp.
Qed.

(** X3: A ring of three or more entries that are all coordinate pairs gives
    exactly three children: shadow and fill over the path through all its
    entries, and the open outline through the same entries in the same
    order, with no closing point added. *)
Theorem well_formed_ring_drawn (p : value) (rest : list value)
        (mapGroup : list object3d) :
  forallb valid_pair (p :: rest) = true ->
  (2 <= List.length rest)%nat ->
  drawPolygon (VArr (p :: rest)) mapGroup
  = mapGroup
      ++ [shadow_mesh (move_call p :: map line_call rest);
          land_mesh (move_call p :: map line_call rest);
          Line (map coast_point (p :: rest)) coastMat].
Proof.
  intros Hv Hlen.
  assert (Hf : filter valid_pair (p :: rest) = p :: rest).
  { apply forallb_filter_id. exact Hv. }
  rewrite drawPolygon_array by (simpl; lia).
  rewrite (forEach_shape_path (p :: rest)).
  unfold coastline. rewrite Hf.
  simpl in Hv. apply andb_prop in Hv. destruct Hv as [Hp Hr].
  unfold shape_path. rewrite Hp.
  rewrite (forallb_filter_id _ _ Hr).
  destruct (Nat.ltb_spec 1 (List.length (map coast_point (p :: rest))))
    as [_|H]; [reflexivity|].
  simpl in H. rewrite length_map in H. lia.
Qed.

Lemma well_formed_ring_drawn_witness :
  drawPolygon triangle []
  = [] ++ [shadow_mesh (move_call (pt 0 0) :: map line_call [pt 4 0; pt 0 4]);
           land_mesh (move_call (pt 0 0) :: map line_call [pt 4 0; pt 0 4]);
           Line (map coast_point [pt 0 0; pt 4 0; pt 0 4]) coastMat].
Proof.
  apply (well_formed_ring_drawn (pt 0 0) [pt 4 0; pt 0 4] []).
  - reflexivity.
  - simpl. lia.
Defined.

End GeometryBuilderMore.

(* ================================================================== *)
(** ** Further properties of the dataset loop *)

Section DatasetLoop.

Import Props.

Lemma forEach_throwing_app (S : Type) (f : value -> S -> completion S)
      (a b : list value) (s : S) :
  forEach_throwing f (a ++ b) s
  = bind (forEach_throwing f a s) (forEach_throwing f b).
Proof.
  revert s. induction a as [|p a IH]; intros s; simpl; [reflexivity|].
  destruct (f p s); simpl; [apply IH|reflexivity].
Qed.

Lemma get_truthy_normal (g : value) (k : string) :
  truthy g = true -> exists v, get g k = Normal v.
Proof.
  destruct g; simpl; try discriminate; intros _; eauto;
    destruct (String.eqb k "length"); eauto.
Qed.

Lemma index0_truthy_normal (c : value) :
  truthy c = true -> exists r, index0 c = Normal r.
Proof.
  destruct c; simpl; try discriminate; intros _; eauto.
  destruct s; eauto.
Qed.

(** X4: Exactly two things make the feature callback throw: a feature that is
    [null] or [undefined], and a MultiPolygon geometry whose [coordinates]
    are truthy but not an array.  Everything else is skipped or drawn. *)
Theorem drawFeature_throws_iff (f : value) (mapGroup : list object3d) :
  drawFeature f mapGroup = Throw
  <-> nullish f = true
      \/ exists g c,
          get f "geometry" = Normal g /\ truthy g = true
          /\ get g "coordinates" = Normal c /\ truthy c = true
          /\ get g "type" = Normal (VStr "MultiPolygon")
          /\ isArray c = false.
Proof.
  unfold drawFeature. split.
  - intros H.
    destruct (get f "geometry") as [g|] eqn:Hg.
    2:{ left. destruct f; simpl in Hg; try discriminate; try reflexivity;
          destruct (String.eqb "geometry" "length"); discriminate. }
    right. simpl in H.
    destruct (truthy g) eqn:Htg; simpl in H; [|discriminate].
    destruct (get_truthy_normal g "coordinates" Htg) as [c Hc].
    rewrite Hc in H. simpl in H.
    destruct (truthy c) eqn:Htc; simpl in H; [|discriminate].
    destruct (get_truthy_normal g "type" Htg) as [ty Hty].
    rewrite Hty in H. simpl in H.
    destruct (index0_truthy_normal c Htc) as [r Hr].
    assert (Hm : strict_eq_str ty "MultiPolygon" = true
                 /\ isArray c = false).
    { destruct (strict_eq_str ty "Polygon");
        [rewrite Hr in H|]; simpl in H;
        (destruct (strict_eq_str ty "MultiPolygon"); [|discriminate]);
        (destruct c; simpl in H; try (split; reflexivity));
        rewrite forEach_drawRingSet in H; discriminate. }
    destruct Hm as [Hm Ha].
    exists g, c. repeat split; try assumption.
    destruct ty; simpl in Hm; try discriminate.
    apply String.eqb_eq in Hm. now subst.
  - intros [Hn|[g [c [Hg [Htg [Hc [Htc [Hty Ha]]]]]]]].
    + destruct f; try discriminate; reflexivity.
    + rewrite Hg. simpl. rewrite Htg. simpl. rewrite Hc. simpl.
      rewrite Htc. simpl. rewrite Hty. simpl.
      destruct c; try discriminate; reflexivity.
Qed.

(** X5: What the callback leaves out without an error: a feature without a
    geometry, a geometry without coordinates, and a geometry of a type other
    than Polygon and MultiPolygon. *)
Theorem drawFeature_skips (f g : value) (mapGroup : list object3d) :
  get f "geometry" = Normal g ->
  truthy g = false
  \/ (exists c, get g "coordinates" = Normal c /\ truthy c = false)
  \/ (exists ty, get g "type" = Normal ty
                 /\ strict_eq_str ty "Polygon" = false
                 /\ strict_eq_str ty "MultiPolygon" = false) ->
  drawFeature f mapGroup = Normal mapGroup.
Proof.
  intros Hg H. unfold drawFeature. rewrite Hg. simpl.
  destruct (truthy g) eqn:Htg; simpl; [|reflexivity].
  destruct H as [H|[[c [Hc Htc]]|[ty [Hty [Hp Hm]]]]]; [discriminate| |].
  - rewrite Hc. simpl. rewrite Htc. reflexivity.
  - destruct (get_truthy_normal g "coordinates" Htg) as [c Hc].
    rewrite Hc. simpl. destruct (truthy c); simpl; [|reflexivity].
    rewrite Hty. simpl. rewrite Hp. simpl. rewrite Hm. reflexivity.
Qed.

Lemma drawFeature_skips_witness :
  drawFeature
    (VObj [("geometry"%string,
            VObj [("type"%string, VStr "Point");
                  ("coordinates"%string, pt 3 4)])]) []
  = Normal [].
Proof.
  apply (drawFeature_skips
           (VObj [("geometry"%string,
                   VObj [("type"%string, VStr "Point");
                         ("coordinates"%string, pt 3 4)])])
           (VObj [("type"%string, VStr "Point");
                  ("coordinates"%string, pt 3 4)]) []).
  - reflexivity.
  - right. right. exists (VStr "Point"). repeat split; reflexivity.
Defined.

Lemma truthy_length_0 : truthy (VNum (INR 0)) = false.
Proof.
  simpl. destruct (Req_dec_T 0 0) as [_|H]; [reflexivity|].
  exfalso. apply H. reflexivity.
Qed.

Lemma truthy_length_pos (n : nat) : truthy (VNum (INR (S n))) = true.
Proof.
  unfold truthy. destruct (Req_dec_T (INR (S n)) 0) as [H|_]; [|reflexivity].
  exfalso. pose proof (lt_0_INR (S n) ltac:(lia)). lra.
Qed.

(** X6: The dataset guard: a missing dataset, a dataset without [features] and
    an empty feature array all leave the map group as it is. *)
Theorem loadGeojson_nothing_to_draw (land : value)
        (mapGroup : list object3d) :
  nullish land = true
  \/ get land "features" = Normal VUndef
  \/ get land "features" = Normal VNull
  \/ get land "features" = Normal (VArr []) ->
  loadGeojson land mapGroup = Normal mapGroup.
Proof.
  unfold loadGeojson.
  intros [H|H].
  - destruct land; try discriminate; reflexivity.
  - assert (Ho : opt_get land "features" = get land "features").
    { destruct land; try reflexivity;
        destruct H as [H|[H|H]]; discriminate. }
    rewrite Ho.
    destruct H as [H|[H|H]]; rewrite H; simpl; try reflexivity.
    destruct (Req_dec_T 0 0) as [_|Hn]; [reflexivity|].
    exfalso. apply Hn. reflexivity.
Qed.

Lemma loadGeojson_nothing_to_draw_witness :
  loadGeojson (VObj [("type"%string, VStr "FeatureCollection");
                     ("features"%string, VArr [])]) []
  = Normal [].
Proof.
  apply (loadGeojson_nothing_to_draw
           (VObj [("type"%string, VStr "FeatureCollection");
                  ("features"%string, VArr [])]) []).
  right. right. right. reflexivity.
Defined.

Lemma loadGeojson_array (land : value) (fs : list value)
      (mapGroup : list object3d) :
  get land "features" = Normal (VArr fs) ->
  loadGeojson land mapGroup = forEach_throwing drawFeature fs mapGroup.
Proof.
  intros H. unfold loadGeojson.
  assert (Ho : opt_get land "features" = get land "features").
  { destruct land; try reflexivity; discriminate. }
  rewrite Ho, H. cbn [bind].
  change (opt_get (VArr fs) "length")
    with (Normal (A:=value) (VNum (INR (List.length fs)))).
  cbn [bind].
  destruct fs as [|f fs]; cbn [List.length].
  - rewrite truthy_length_0. reflexivity.
  - rewrite truthy_length_pos. reflexivity.
Qed.

(** X7: One [null] entry in the feature array ends the whole effect with a
    [TypeError], wherever it stands: the features after it are not drawn and
    nothing is returned. *)
Theorem null_feature_aborts_load (land : value) (before after : list value)
        (f : value) (mapGroup : list object3d) :
  get land "features" = Normal (VArr (before ++ f :: after)) ->
  nullish f = true ->
  loadGeojson land mapGroup = Throw.
Proof.
  intros H Hf. rewrite (loadGeojson_array _ _ _ H).
  rewrite forEach_throwing_app.
  destruct (forEach_throwing drawFeature before mapGroup); [|reflexivity].
  simpl. destruct f; try discriminate; reflexivity.
Qed.

Lemma null_feature_aborts_load_witness :
  loadGeojson (VObj [("features"%string,
                      VArr ([polygon_feature] ++ VNull :: [polygon_feature]))])
              []
  = Throw.
Proof.
  apply (null_feature_aborts_load
           (VObj [("features"%string,
                   VArr ([polygon_feature] ++ VNull :: [polygon_feature]))])
           [polygon_feature] [polygon_feature] VNull []);
    reflexivity.
Defined.

Lemma draw_outer_rings_extends (polys : list value)
      (mapGroup : list object3d) :
  exists added,
    draw_outer_rings polys mapGroup = mapGroup ++ added
    /\ Forall land_child added.
Proof.
  unfold draw_outer_rings. revert mapGroup.
  induction polys as [|poly polys IH]; intros mapGroup; simpl.
  - exists []. split; [now rewrite app_nil_r|constructor].
  - destruct (outer_ring poly) as [r|].
    + destruct (IH (drawPolygon r mapGroup)) as [added [E Hc]].
      pose proof (drawPolygon_appends r mapGroup) as Ea.
      pose proof (drawPolygon_land_children r) as Ha.
      exists (drawPolygon r [] ++ added). split.
      * rewrite E, Ea. now rewrite app_assoc.
      * apply Forall_app. split; assumption.
    + apply IH.
Qed.

End DatasetLoop.

Section DatasetInvariant.

Import Props.

Lemma drawFeature_extends (f : value) (mapGroup out : list object3d) :
  drawFeature f mapGroup = Normal out ->
  exists added, out = mapGroup ++ added /\ Forall land_child added.
Proof.
  unfold drawFeature. intros H.
  destruct (get f "geometry") as [g|]; [|discriminate]. simpl in H.
  destruct (truthy g); simpl in H.
  2:{ injection H as <-. exists []. split; [now rewrite app_nil_r|constructor]. }
  destruct (get g "coordinates") as [c|]; [|discriminate]. simpl in H.
  destruct (truthy c); simpl in H.
  2:{ injection H as <-. exists []. split; [now rewrite app_nil_r|constructor]. }
  destruct (get g "type") as [ty|]; [|discriminate]. simpl in H.
  assert (H1 : exists mid added1,
             (if strict_eq_str ty "Polygon"
              then bind (index0 c) (fun r => Normal (drawPolygon r mapGroup))
              else Normal mapGroup) = Normal mid
             /\ mid = mapGroup ++ added1 /\ Forall land_child added1).
  { destruct (strict_eq_str ty "Polygon").
    - destruct (index0 c) as [r|]; [|discriminate]. simpl.
      exists (drawPolygon r mapGroup), (drawPolygon r []).
      split; [reflexivity|].
      split; [apply drawPolygon_appends|apply drawPolygon_land_children].
    - exists mapGroup, []. split; [reflexivity|].
      split; [now rewrite app_nil_r|constructor]. }
  destruct H1 as [mid [added1 [E1 [Em Ha1]]]].
  rewrite E1 in H. simpl in H.
  destruct (strict_eq_str ty "MultiPolygon").
  - destruct c; simpl in H; try discriminate.
    rewrite forEach_drawRingSet in H. injection H as <-.
    destruct (draw_outer_rings_extends items mid) as [added2 [E2 Ha2]].
    exists (added1 ++ added2). split.
    + rewrite E2, Em. now rewrite app_assoc.
    + apply Forall_app. split; assumption.
  - injection H as <-. exists added1. split; assumption.
Qed.

Lemma forEach_drawFeature_extends (fs : list value) :
  forall mapGroup out,
    forEach_throwing drawFeature fs mapGroup = Normal out ->
    exists added, out = mapGroup ++ added /\ Forall land_child added.
Proof.
  induction fs as [|f fs IH]; intros mapGroup out H; simpl in H.
  - injection H as <-. exists []. split; [now rewrite app_nil_r|constructor].
  - destruct (drawFeature f mapGroup) as [mid|] eqn:Hf; [|discriminate].
    simpl in H.
    destruct (drawFeature_extends _ _ _ Hf) as [a1 [E1 H1]].
    destruct (IH _ _ H) as [a2 [E2 H2]].
    exists (a1 ++ a2). split.
    + rewrite E2, E1. now rewrite app_assoc.
    + apply Forall_app. split; assumption.
Qed.

(** X8: Loading a dataset, whatever its shape, only ever appends: when the load
    completes, the children that were in the group are still its first
    children, in the same order, and every child added is a shadow mesh, a
    fill mesh or a coast line of at least two points at depth 2. *)
Theorem loadGeojson_only_appends (land : value)
        (mapGroup out : list object3d) :
  loadGeojson land mapGroup = Normal out ->
  exists added, out = mapGroup ++ added /\ Forall land_child added.
Proof.
  unfold loadGeojson. intros H.
  destruct (opt_get land "features") as [fs|]; [|discriminate]. simpl in H.
  destruct (opt_get fs "length") as [len|]; [|discriminate]. simpl in H.
  destruct (truthy len).
  - destruct (get land "features") as [fs'|]; [|discriminate]. simpl in H.
    destruct fs'; simpl in H; try discriminate.
    now apply forEach_drawFeature_extends in H.
  - injection H as <-. exists []. split; [now rewrite app_nil_r|constructor].
Qed.

Lemma loadGeojson_only_appends_witness :
  exists added,
    drawPolygon triangle [land_mesh []] = [land_mesh []] ++ added
    /\ Forall land_child added.
Proof.
  apply (loadGeojson_only_appends
           (VObj [("features"%string, VArr [polygon_feature])])
           [land_mesh []] (drawPolygon triangle [land_mesh []])).
  rewrite (loadGeojson_array
             (VObj [("features"%string, VArr [polygon_feature])])
             [polygon_feature] [land_mesh []] eq_refl).
  reflexivity.
Defined.

End DatasetInvariant.

(* ================================================================== *)
(** ** Further properties of the travel arc *)

Section ArcPathMore.

Import Viewport.
Local Open Scope R_scope.

Lemma progress_range (i : nat) :
  (i <= arcSteps)%nat -> 0 <= progress i <= 1.
Proof.
  intros Hi. unfold progress, arcSteps in *.
  replace (INR 160) with 160 by (simpl; lra).
  pose proof (pos_INR i). apply le_INR in Hi.
  replace (INR 160) with 160 in Hi by (simpl; lra). lra.
Qed.

Lemma arc_lift_range (t : R) : 0 <= t <= 1 -> 0 <= arc_lift t <= 18.
Proof.
  intros [H0 H1]. unfold arc_lift.
  pose proof Math_PI_lower as Hl.
  assert (Hp : 0 < Math_PI) by (unfold Math_PI; lra).
  assert (Hs : 0 <= sin (t * Math_PI)).
  { apply sin_ge_0; nra. }
  assert (0 <= Math_sin (t * Math_PI)).
  { unfold Math_sin. apply round_double_nonneg. exact Hs. }
  pose proof (Math_sin_le_1 (t * Math_PI)). lra.
Qed.

(** X9: On the arc, that is for [t] between 0 and 1, the lift is never
    negative and never more than 18: no sample lies below the straight
    segment between the endpoints or more than 18 above it. *)
Theorem arc_lift_between_0_and_18 (t : R) :
  0 <= t <= 1 ->
  0 <= arc_lift t <= 18
  /\ lerp (y2 arc_start) (y2 arc_end) t
     <= lerp (y2 arc_start) (y2 arc_end) t + arc_lift t
     <= lerp (y2 arc_start) (y2 arc_end) t + 18.
Proof.
  intros H. pose proof (arc_lift_range t H). split; lra.
Qed.

Lemma arc_lift_between_0_and_18_witness :
  0 <= arc_lift (1 / 4) <= 18.
Proof.
  refine (proj1 (arc_lift_between_0_and_18 (1 / 4) _)). lra.
Defined.

Lemma sample_box (i : nat) :
  (i <= arcSteps)%nat ->
  10 <= x3 (sample i) <= 120 /\ 25 <= y3 (sample i) <= 63
  /\ z3 (sample i) = 6.
Proof.
  intros Hi. pose proof (progress_range i Hi) as Ht.
  pose proof (arc_lift_range _ Ht) as Hl.
  unfold sample, lerp, arc_start, arc_end, project.
  cbn [x3 y3 z3 x2 y2 nth]. fold (progress i).
  repeat split; lra.
Qed.

(** X10: Every sample of the arc lies in the box 10..120 by 25..63 at depth 6,
    so inside the vertical camera bounds at any window size, and x grows
    strictly from one sample to the next. *)
Theorem arc_samples_in_box :
  exists b,
    travelArc (S arcSteps) = Some b
    /\ (forall i d, (i <= 160)%nat ->
          let p := nth i (arcPts b) d in
          10 <= x3 p <= 120 /\ 25 <= y3 p <= 63 /\ z3 p = 6)
    /\ (forall i j d, (i < j <= 160)%nat ->
          x3 (nth i (arcPts b) d) < x3 (nth j (arcPts b) d)).
Proof.
  eexists. split; [apply travelArc_closed_form; lia|].
  cbn [arcPts]. split.
  - intros i d Hi. cbv zeta. rewrite nth_sample by exact Hi.
    apply sample_box. exact Hi.
  - intros i j d [Hij Hj].
    rewrite !nth_sample by (unfold arcSteps; lia).
    unfold sample, lerp, arc_start, arc_end, project.
    cbn [x3 x2 nth]. unfold arcSteps.
    replace (INR 160) with 160 by (simpl; lra).
    apply lt_INR in Hij. lra.
Qed.

(** X11: The whole arc is inside the view volume of the camera built for a
    window that is at least two thirds as wide as it is high; that camera is
    the one in use at mount and after every resize to such a window. *)
Theorem arc_inside_view (w h dpr : R) (i : nat) :
  0 < h -> 2 * h <= 3 * w -> (i <= arcSteps)%nat ->
  let c := newCamera (mkWindow w h dpr) in
  left c <= x3 (sample i) <= right c
  /\ bottom c <= y3 (sample i) <= top c.
Proof.
  intros Hh Hw Hi c.
  destruct (sample_box i Hi) as [Hx [Hy Hz]].
  assert (Ha : 2 / 3 <= w / h).
  { apply Rmult_le_reg_r with h; [exact Hh|].
    unfold Rdiv at 2. rewrite Rmult_assoc, Rinv_l by lra. lra. }
  unfold c, newCamera, WORLD_WIDTH, WORLD_HEIGHT.
  cbn [left right top bottom innerWidth innerHeight].
  repeat split; lra.
Qed.

Lemma arc_inside_view_witness :
  left (newCamera (mkWindow 800 600 1)) <= x3 (sample 80)
  <= right (newCamera (mkWindow 800 600 1)).
Proof.
  destruct (arc_inside_view 800 600 1 80) as [H _].
  - lra.
  - lra.
  - unfold arcSteps. lia.
  - exact H.
Defined.

End ArcPathMore.

(* ================================================================== *)
(** ** Further properties of the shader and the clock *)

Section GlowMore.

Import Viewport GLSL.
Local Open Scope R_scope.

Lemma clamp_range (x : R) : 0 <= clamp x 0 1 <= 1.
Proof.
  unfold clamp, Rmin, Rmax.
  destruct (Rle_dec x 0); destruct (Rle_dec 0 1);
    try destruct (Rle_dec x 1); lra.
Qed.

Lemma clamp_mono (x y : R) : x <= y -> clamp x 0 1 <= clamp y 0 1.
Proof.
  intros H. unfold clamp, Rmin, Rmax.
  destruct (Rle_dec x 0); destruct (Rle_dec y 0);
    destruct (Rle_dec 0 1); try destruct (Rle_dec x 1);
    try destruct (Rle_dec y 1); lra.
Qed.

Lemma hermite_range (t : R) : 0 <= t <= 1 -> 0 <= t * t * (3 - 2 * t) <= 1.
Proof.
  intros [H0 H1]. split.
  - apply Rmult_le_pos; [nra|lra].
  - assert (0 <= (1 - t) * (1 - t) * (1 + 2 * t)).
    { apply Rmult_le_pos; [nra|lra]. }
    nra.
Qed.

Lemma hermite_mono (a b : R) :
  0 <= a -> a <= b -> b <= 1 ->
  a * a * (3 - 2 * a) <= b * b * (3 - 2 * b).
Proof.
  intros H0 Hab H1.
  assert (E : b * b * (3 - 2 * b) - a * a * (3 - 2 * a)
              = (b - a) * (3 * (a + b) - 2 * (a * a + a * b + b * b)))
    by ring.
  assert (0 <= 3 * (a + b) - 2 * (a * a + a * b + b * b)).
  { assert (0 <= a * (1 - a)) by (apply Rmult_le_pos; lra).
    assert (0 <= b * (1 - b)) by (apply Rmult_le_pos; lra).
    assert (0 <= a * (1 - b)) by (apply Rmult_le_pos; lra).
    assert (0 <= b * (1 - a)) by (apply Rmult_le_pos; lra).
    nra. }
  assert (0 <= (b - a) * (3 * (a + b) - 2 * (a * a + a * b + b * b)))
    by (apply Rmult_le_pos; lra).
  lra.
Qed.

Lemma smoothstep_range (e0 e1 x : R) : 0 <= smoothstep e0 e1 x <= 1.
Proof. unfold smoothstep. apply hermite_range. apply clamp_range. Qed.

Lemma smoothstep_mono (e0 e1 x y : R) :
  e0 < e1 -> x <= y -> smoothstep e0 e1 x <= smoothstep e0 e1 y.
Proof.
  intros He Hxy. unfold smoothstep. cbv zeta.
  pose proof (clamp_range ((x - e0) / (e1 - e0))).
  pose proof (clamp_range ((y - e0) / (e1 - e0))).
  apply hermite_mono; try lra.
  apply clamp_mono. unfold Rdiv.
  apply Rmult_le_compat_r; [|lra].
  apply Rlt_le, Rinv_0_lt_compat. lra.
Qed.

(** X12: The intensity the shader computes, for every uniform and every progress
    value: it is the second smoothstep alone, it lies in [0, 1], it is 0 up
    to [time] and 1 from [time + 0.2] on, and it never decreases along the
    arc. *)
Theorem glow_profile (time vP : R) :
  glow time vP = smoothstep time (time + 0.2) vP
  /\ 0 <= glow time vP <= 1
  /\ (vP <= time -> glow time vP = 0)
  /\ (time + 0.2 <= vP -> glow time vP = 1)
  /\ (forall vQ, vP <= vQ -> glow time vP <= glow time vQ).
Proof.
  split; [apply glow_is_second_factor|].
  split; [rewrite glow_is_second_factor; apply smoothstep_range|].
  split; [apply glow_before_time|].
  split; [apply glow_past_window|].
  intros vQ H. rewrite !glow_is_second_factor.
  apply smoothstep_mono; lra.
Qed.

(** X13: The profile travels with the uniform: shifting the uniform and the
    progress value by the same amount gives the same intensity. *)
Theorem glow_travels (time vP d : R) :
  glow (time + d) (vP + d) = glow time vP.
Proof.
  unfold glow, smoothstep. cbv zeta.
  replace (vP + d - (time + d - 0.05)) with (vP - (time - 0.05)) by lra.
  replace (time + d - (time + d - 0.05)) with (time - (time - 0.05)) by lra.
  replace (vP + d - (time + d)) with (vP - time) by lra.
  replace (time + d + 0.2 - (time + d)) with (time + 0.2 - time) by lra.
  reflexivity.
Qed.

Lemma Int_part_plus_1 (x : R) : Int_part (x + 1) = (Int_part x + 1)%Z.
Proof.
  symmetry. apply Int_part_spec.
  destruct (base_Int_part x) as [H1 H2]. rewrite plus_IZR. simpl. lra.
Qed.

(** X14: The uniform has period 4 seconds, and within the first period it is a
    quarter of the elapsed time. *)
Theorem wrapped_time_period (elapsed : R) :
  0 <= elapsed ->
  wrapped_time (elapsed + 4) = wrapped_time elapsed
  /\ (elapsed < 4 -> wrapped_time elapsed = elapsed * 0.25).
Proof.
  intros He. unfold wrapped_time. split.
  - rewrite !js_rem_1_frac by lra. unfold frac_part.
    replace ((elapsed + 4) * 0.25) with (elapsed * 0.25 + 1) by lra.
    rewrite Int_part_plus_1, plus_IZR. simpl. lra.
  - intros H4. rewrite js_rem_1_frac by lra. unfold frac_part.
    replace (Int_part (elapsed * 0.25)) with 0%Z; [simpl; lra|].
    apply Int_part_spec. simpl. lra.
Qed.

Lemma wrapped_time_period_witness :
  wrapped_time (1 + 4) = wrapped_time 1.
Proof.
  refine (proj1 (wrapped_time_period 1 _)). lra.
Defined.

End GlowMore.

(* ================================================================== *)
(** ** Mount, run and teardown *)

Section LifecycleProps.

Import Viewport Lifecycle Props.
Local Open Scope R_scope.

Lemma useEffect_mounted (w : window) (land : value) (b0 b : browser)
      (i : instance) :
  pending b0 = [] ->
  useEffect true w land b0 = (b, Normal (Some i)) ->
  exists grp, loadGeojson land [] = Normal grp /\ mounted w w 0 grp (b, i).
Proof.
  intros Hp. unfold useEffect, animate_cb, requestAnimationFrame. simpl.
  destruct (loadGeojson land []) as [grp|]; [|discriminate].
  rewrite Hp. simpl. intros H. injection H as <- <-.
  exists grp. split; [reflexivity|].
  exists (next_handle b0). simpl. repeat split; auto.
Qed.

Lemma deliver_mounted (w0 lw : window) (le : R) (grp : list object3d)
      (st : browser * instance) (e : event) :
  mounted w0 lw le grp st ->
  mounted w0 (last_window [e] lw) (last_elapsed [e] le) grp (deliver st e).
Proof.
  intros [h [Hp [Hr [Hlt [Hl [Hc [Hd [Hg Hs]]]]]]]].
  destruct st as [b i]. simpl in *.
  destruct e as [elapsed|w]; simpl.
  - rewrite Hp. simpl.
    exists (next_handle b). simpl. repeat split; auto.
    rewrite Hs. reflexivity.
  - rewrite Hl. exists h. simpl. repeat split; auto.
    rewrite Hs. reflexivity.
Qed.

Lemma run_mounted (events : list event) :
  forall (w0 lw : window) (le : R) (grp : list object3d)
         (st : browser * instance),
    mounted w0 lw le grp st ->
    mounted w0 (last_window events lw) (last_elapsed events le) grp
            (run events st).
Proof.
  induction events as [|e events IH]; intros w0 lw le grp st H; [exact H|].
  simpl. apply IH. apply (deliver_mounted w0 lw le grp st e H).
Qed.

(** The two ways the effect ends early.  Without a container it touches
    nothing and returns no cleanup function.  When the load of the dataset
    throws, the canvas is already in the container, and no frame was
    requested, no listener registered and no cleanup function returned. *)
Lemma useEffect_ends_early (w : window) (land : value) (b0 : browser) :
  useEffect false w land b0 = (b0, Normal None)
  /\ (loadGeojson land [] = Throw ->
      useEffect true w land b0
      = (mkBrowser (pending b0) (next_handle b0) (listening b0) true,
         Throw)).
Proof.
  split; [reflexivity|].
  intros H. unfold useEffect. simpl. rewrite H. reflexivity.
Qed.

(** X16: Between events a mounted component has exactly one frame request
    pending and [raf] holds its handle; the resize listener is registered,
    the canvas is in the container and the renderer is not disposed. *)
Theorem one_frame_pending (w : window) (land : value) (b0 b : browser)
        (i : instance) (events : list event) :
  pending b0 = [] ->
  useEffect true w land b0 = (b, Normal (Some i)) ->
  exists h,
    pending (fst (run events (b, i))) = [h]
    /\ raf (snd (run events (b, i))) = Some h
    /\ listening (fst (run events (b, i))) = true
    /\ canvas_in_dom (fst (run events (b, i))) = true
    /\ disposed (snd (run events (b, i))) = false.
Proof.
  intros Hp Hu.
  destruct (useEffect_mounted w land b0 b i Hp Hu) as [grp [_ Hm]].
  destruct (run_mounted events _ _ _ _ _ Hm)
    as [h [H1 [H2 [_ [H3 [H4 [H5 _]]]]]]].
  exists h. repeat split; assumption.
Qed.

Lemma one_frame_pending_witness :
  exists h,
    pending (fst (run [Frame 1; Resize (mkWindow 4 3 1); Frame 2]
                      (mkBrowser [7%nat] 8 true true,
                       mkInstance (Some 7%nat)
                                  (animate 0 (mount (mkWindow 8 6 1)))
                                  false [])))
    = [h].
Proof.
  destruct (one_frame_pending (mkWindow 8 6 1) VNull
              (mkBrowser [] 7 false false)
              (mkBrowser [7%nat] 8 true true)
              (mkInstance (Some 7%nat) (animate 0 (mount (mkWindow 8 6 1)))
                          false [])
              [Frame 1; Resize (mkWindow 4 3 1); Frame 2]
              eq_refl eq_refl) as [h [H _]].
  exists h. exact H.
Defined.

(** X17: The state after any run of frames and resize events keeps no history:
    the camera is the one a mount in the last window would build, the
    surface has the size of the last window, the uniform is the wrapped
    clock reading of the last frame, the pixel ratio is still the one
    computed at mount, and the map group holds what the load put there. *)
Theorem scene_is_last_event_values (w : window) (land : value)
        (b0 b : browser) (i : instance) (events : list event) :
  pending b0 = [] ->
  useEffect true w land b0 = (b, Normal (Some i)) ->
  let lw := last_window events w in
  scene (snd (run events (b, i)))
  = mkState (mkRenderer (Math_min (devicePixelRatio w) 2)
                        (innerWidth lw) (innerHeight lw))
            (newCamera lw)
            (wrapped_time (last_elapsed events 0))
  /\ loadGeojson land []
     = Normal (group_children (snd (run events (b, i)))).
Proof.
  intros Hp Hu lw.
  destruct (useEffect_mounted w land b0 b i Hp Hu) as [grp [Hl Hm]].
  destruct (run_mounted events _ _ _ _ _ Hm)
    as [h [_ [_ [_ [_ [_ [_ [Hg H]]]]]]]].
  split; [exact H|]. rewrite Hg. exact Hl.
Qed.

Lemma scene_is_last_event_values_witness :
  st_camera
    (scene (snd (run [Resize (mkWindow 4 3 1); Frame 2; Resize (mkWindow 5 5 3)]
                     (mkBrowser [7%nat] 8 true true,
                      mkInstance (Some 7%nat)
                                 (animate 0 (mount (mkWindow 8 6 1)))
                                 false []))))
  = newCamera (mkWindow 5 5 3).
Proof.
  rewrite (proj1 (scene_is_last_event_values
             (mkWindow 8 6 1) VNull (mkBrowser [] 7 false false)
             (mkBrowser [7%nat] 8 true true)
             (mkInstance (Some 7%nat) (animate 0 (mount (mkWindow 8 6 1)))
                         false [])
             [Resize (mkWindow 4 3 1); Frame 2; Resize (mkWindow 5 5 3)]
             eq_refl eq_refl)).
  reflexivity.
Defined.

Lemma run_after_cleanup (later : list event) :
  forall (b : browser) (i : instance),
    pending b = [] -> listening b = false -> run later (b, i) = (b, i).
Proof.
  induction later as [|e later IH]; intros b i Hp Hl; [reflexivity|].
  simpl.
  assert (E : deliver (b, i) e = (b, i)).
  { destruct e as [elapsed|w]; simpl.
    - rewrite Hp. simpl. destruct b; simpl in *. now subst.
    - now rewrite Hl. }
  rewrite E. now apply IH.
Qed.

(** X18: Teardown stops everything: after the cleanup function has run no frame
    request is pending and the listener is gone, so no later frame or resize
    event changes anything; the renderer is disposed, and the canvas leaves
    the container if the container still exists. *)
Theorem cleanup_stops_everything (w : window) (land : value)
        (b0 b : browser) (i : instance) (events later : list event)
        (ref_current : bool) :
  pending b0 = [] ->
  useEffect true w land b0 = (b, Normal (Some i)) ->
  let st := cleanup ref_current (run events (b, i)) in
  pending (fst st) = []
  /\ listening (fst st) = false
  /\ disposed (snd st) = true
  /\ canvas_in_dom (fst st) = negb ref_current
  /\ scene (snd st) = scene (snd (run events (b, i)))
  /\ run later st = st.
Proof.
  intros Hp Hu st.
  destruct (useEffect_mounted w land b0 b i Hp Hu) as [grp [_ Hm]].
  destruct (run_mounted events _ _ _ _ _ Hm)
    as [h [H1 [H2 [_ [H3 [H4 [H5 _]]]]]]].
  unfold st. destruct (run events (b, i)) as [b1 i1]. simpl in *.
  unfold cleanup. rewrite H2. unfold cancelAnimationFrame. rewrite H1.
  simpl. destruct (Nat.eq_dec h h) as [_|N]; [|contradiction].
  destruct ref_current; cbn [fst snd pending listening canvas_in_dom
                              disposed scene negb];
    repeat split; try assumption; try reflexivity;
    apply run_after_cleanup; reflexivity.
Qed.

Lemma cleanup_stops_everything_witness :
  pending
    (fst (cleanup true
            (run [Frame 1; Resize (mkWindow 4 3 1)]
                 (mkBrowser [7%nat] 8 true true,
                  mkInstance (Some 7%nat)
                             (animate 0 (mount (mkWindow 8 6 1)))
                             false []))))
  = [].
Proof.
  refine (proj1 (cleanup_stops_everything
                   (mkWindow 8 6 1) VNull (mkBrowser [] 7 false false)
                   (mkBrowser [7%nat] 8 true true)
                   (mkInstance (Some 7%nat)
                               (animate 0 (mount (mkWindow 8 6 1))) false [])
                   [Frame 1; Resize (mkWindow 4 3 1)] [Frame 9] true
                   eq_refl eq_refl)).
Defined.

(** X19: With the identity projection the whole map, longitudes -180..180 and
    latitudes -90..90, is inside the view volume exactly when the window is
    at least as wide as it is high; the vertical bounds always fit it
    exactly. *)
Theorem whole_map_visible_iff (w h dpr : R) :
  0 < h ->
  let c := st_camera (mount (mkWindow w h dpr)) in
  ((forall lon lat, -180 <= lon <= 180 -> -90 <= lat <= 90 ->
      left c <= x2 (project 0 [lon; lat]) <= right c
      /\ bottom c <= y2 (project 0 [lon; lat]) <= top c)
   <-> h <= w)
  /\ top c = 90 /\ bottom c = -90 /\ left c = - right c.
Proof.
  intros Hh c.
  assert (E : w / h * h = w) by (field; lra).
  unfold c, mount, newCamera, WORLD_WIDTH, WORLD_HEIGHT, project.
  cbn [st_camera left right top bottom innerWidth innerHeight x2 y2 nth].
  split; [|repeat split; lra].
  split.
  - intros H. destruct (H 180 0) as [[_ H1] _]; try lra.
    assert (1 <= w / h) by lra. nra.
  - intros Hw lon lat Hlon Hlat.
    assert (1 <= w / h).
    { apply Rmult_le_reg_r with h; [exact Hh|]. lra. }
    repeat split; lra.
Qed.

Lemma whole_map_visible_iff_witness :
  top (st_camera (mount (mkWindow 800 600 1))) = 90.
Proof.
  destruct (whole_map_visible_iff 800 600 1) as [_ [H _]].
  - lra.
  - exact H.
Defined.

End LifecycleProps.
